(** * validate_skills.py: a shallow embedding and its properties

    The script lints a directory of skill folders.  Python strings are
    modelled as lists of Unicode code points, the [str] methods the script
    calls are written out as list functions, exceptions are an explicit
    result type, and the file-system calls of [pathlib] are the fields of a
    record the validator is run against. *)

From Stdlib Require Import Strings.String Strings.Ascii.
From stdpp Require Import gmap list sorting.

Local Open Scope N_scope.

(** ** Python strings *)

Module Py.

(** A character is a code point, a [str] a list of them. *)
Abbreviation char := N.
Abbreviation str := (list N).

(** A literal of the script, written as a Rocq string. *)
Definition lit (s : string) : str := map N_of_ascii (list_ascii_of_string s).

Definition QUOTE : N := 34.      (* the double quote *)
Definition APOSTROPHE : N := 39. (* the single quote *)
Definition HASH : N := 35.
Definition COLON : N := 58.
Definition LF : N := 10.
Definition CR : N := 13.

(** [str.isspace] on one character: the code points CPython treats as
    white space (bidirectional type WS, B or S, or category Zs). *)
Definition isspace (c : N) : bool :=
  ((9 <=? c) && (c <=? 13)) || ((28 <=? c) && (c <=? 32))
  || (c =? 133) || (c =? 160) || (c =? 5760)
  || ((8192 <=? c) && (c <=? 8202))
  || (c =? 8232) || (c =? 8233) || (c =? 8239) || (c =? 8287) || (c =? 12288).

(** The line boundaries of [str.splitlines]. *)
Definition is_linebreak (c : N) : bool :=
  ((10 <=? c) && (c <=? 13)) || ((28 <=? c) && (c <=? 30))
  || (c =? 133) || (c =? 8232) || (c =? 8233).

Fixpoint drop_while (p : N → bool) (s : str) : str :=
  match s with
  | [] => []
  | c :: rest => if p c then drop_while p rest else s
  end.

Fixpoint take_while (p : N → bool) (s : str) : str :=
  match s with
  | [] => []
  | c :: rest => if p c then c :: take_while p rest else []
  end.

(** [s.lstrip()], [s.rstrip()], [s.strip()]: white space removed. *)
Definition lstrip (s : str) : str := drop_while isspace s.
Definition rstrip (s : str) : str := rev (drop_while isspace (rev s)).
Definition strip (s : str) : str := rstrip (lstrip s).

(** [s.strip(chars)]: every leading and trailing character that is in
    [chars] removed. *)
Definition in_chars (chars : str) (c : N) : bool := existsb (N.eqb c) chars.
Definition strip_chars (chars : str) (s : str) : str :=
  rev (drop_while (in_chars chars) (rev (drop_while (in_chars chars) s))).

(** [s.startswith(p)] and the tuple form [s.startswith((p1, p2, ...))]. *)
Fixpoint startswith (p s : str) : bool :=
  match p, s with
  | [] , _ => true
  | _ :: _, [] => false
  | a :: p', b :: s' => (a =? b) && startswith p' s'
  end.
Definition startswith_any (ps : list str) (s : str) : bool :=
  existsb (fun p => startswith p s) ps.

(** [c in s] for a one-character [c]. *)
Definition contains (c : N) (s : str) : bool := existsb (N.eqb c) s.

Definition str_eqb (a b : str) : bool := bool_decide (a = b).

(** [s.splitlines()]: the lines of [s] without their terminators; a CR LF
    pair is one terminator and a final terminator opens no empty line. *)
Fixpoint splitlines (s : str) : list str :=
  match s with
  | [] => []
  | c :: rest =>
    if is_linebreak c then
      [] :: match rest with
            | d :: rest' =>
              if (c =? CR) && (d =? LF) then splitlines rest'
              else splitlines rest
            | [] => []
            end
    else
      match splitlines rest with
      | [] => [[c]]
      | l :: ls => (c :: l) :: ls
      end
  end.

(** [s.split()]: the maximal runs of characters that are not white space. *)
Fixpoint split (s : str) : list str :=
  match s with
  | [] => []
  | c :: rest =>
    if isspace c then split rest
    else match rest with
         | [] => [[c]]
         | d :: _ =>
           if isspace d then [c] :: split rest
           else match split rest with
                | tok :: toks => (c :: tok) :: toks
                | [] => [[c]]
                end
         end
  end.

(** [s.split(sep, 1)] for a one-character [sep]: one piece when [sep] does
    not occur, else the text before and the text after its first occurrence. *)
Fixpoint split1 (sep : N) (s : str) : list str :=
  match s with
  | [] => [[]]
  | c :: rest =>
    if c =? sep then [[]; rest]
    else match split1 sep rest with
         | h :: t => (c :: h) :: t
         | [] => [[c]]
         end
  end.

(** [lines.index(x, start)]: the first position at or after [start] that
    holds [x]; [None] stands for the [ValueError] of a failed search. *)
Fixpoint index_from (x : str) (lines : list str) (start : nat) : option nat :=
  match lines with
  | [] => None
  | l :: ls =>
    match start with
    | O => if str_eqb l x then Some O else S <$> index_from x ls O
    | S k => S <$> index_from x ls k
    end
  end.

(** [lines[a:b]] for [0 <= a] and [0 <= b]. *)
Definition slice {A} (l : list A) (a b : nat) : list A := drop a (take b l).

(** Exceptions that the script does not catch. *)
Inductive exn := IndexError | ValueError | KeyError.

Inductive res (A : Type) :=
| Ok (a : A)
| Raise (e : exn).
Arguments Ok {A} a.
Arguments Raise {A} e.

Definition bind {A B} (m : res A) (k : A → res B) : res B :=
  match m with
  | Ok a => k a
  | Raise e => Raise e
  end.

(** [l[0]] *)
Definition item0 {A} (l : list A) : res A :=
  match l with
  | x :: _ => Ok x
  | [] => Raise IndexError
  end.

(** [a, b = l] *)
Definition unpack2 {A} (l : list A) : res (A * A) :=
  match l with
  | [a; b] => Ok (a, b)
  | _ => Raise ValueError
  end.

End Py.

Import Py.

#[global] Instance res_bind : MBind res := λ A B k m, bind m k.
#[global] Instance res_ret : MRet res := λ A a, Ok a.

(** ** The script *)

(** [NAME_RE = re.compile(r"^[a-z0-9-]{1,64}$")] *)
Definition name_char (c : N) : bool :=
  ((97 <=? c) && (c <=? 122)) || ((48 <=? c) && (c <=? 57)) || (c =? 45).

(** [NAME_RE.match(s)] as a truth value.  [{1,64}] is greedy, so the run it
    takes is the longest one of at most 64 name characters; [$] holds at
    the end of the text and just before a line feed that ends the text. *)
Definition NAME_RE_match (s : str) : bool :=
  let run := take_while name_char s in
  let rest := drop (length run) s in
  negb (bool_decide (run = []))
  && (length run <=? 64)%nat
  && (bool_decide (rest = []) || bool_decide (rest = [LF])).

Definition NAME_RE_pattern : str := lit "^[a-z0-9-]{1,64}$".

Definition DELIM : str := lit "---".

(** The first element of the pair [parse_frontmatter] returns: a [dict]. *)
Abbreviation dict := (gmap (list N) (list N)).

(** One turn of the [for line in front] loop. *)
Definition parse_line (data : dict) (line : str) : res dict :=
  if bool_decide (strip line = []) || startswith [HASH] (lstrip line) then
    Ok data
  else if negb (contains COLON line) then
    Ok data
  else
    '(key, value) ← unpack2 (split1 COLON line);
    Ok (<[strip key := strip_chars [QUOTE; APOSTROPHE] (strip value)]> data).

Fixpoint parse_lines (data : dict) (front : list str) : res dict :=
  match front with
  | [] => Ok data
  | line :: front' => data' ← parse_line data line; parse_lines data' front'
  end.

Definition parse_frontmatter (text : str) : res (option dict * option str) :=
  let lines := splitlines text in
  match lines with
  | [] => Ok (None, Some (lit "missing frontmatter start"))
  | first :: _ =>
    if negb (str_eqb (strip first) DELIM) then
      Ok (None, Some (lit "missing frontmatter start"))
    else
      match index_from DELIM lines 1 with
      | None => Ok (None, Some (lit "missing frontmatter end"))
      | Some end_ =>
        let front := slice lines 1 end_ in
        data ← parse_lines ∅ front;
        Ok (Some data, None)
      end
  end.

(** [LINK_RE = re.compile(r"\[[^\]]+\]\(([^)]+)\)")] *)
Definition LBRACKET : N := 91.
Definition RBRACKET : N := 93.
Definition LPAREN : N := 40.
Definition RPAREN : N := 41.

(** [LINK_RE] matched at the head of [s]: group 1 and the length of the
    whole match.  Both [+] are greedy over a negated class that excludes
    the character the pattern asks for next, so each run is the longest
    one and giving characters back never helps. *)
Definition LINK_RE_match (s : str) : option (str * nat) :=
  match s with
  | c :: s1 =>
    if c =? LBRACKET then
      let label := take_while (fun c => negb (c =? RBRACKET)) s1 in
      match label, drop (length label) s1 with
      | _ :: _, r :: l :: s2 =>
        if (r =? RBRACKET) && (l =? LPAREN) then
          let target := take_while (fun c => negb (c =? RPAREN)) s2 in
          match target, drop (length target) s2 with
          | _ :: _, p :: _ =>
            if p =? RPAREN
            then Some (target, (length label + length target + 4)%nat)
            else None
          | _, _ => None
          end
        else None
      | _, _ => None
      end
    else None
  | [] => None
  end.

(** [LINK_RE.findall(text)], scanning from the left; [skip] counts the
    characters of the last match that are still to be passed over. *)
Fixpoint findall_from (skip : nat) (s : str) : list str :=
  match s with
  | [] => []
  | _ :: rest =>
    match skip with
    | S k => findall_from k rest
    | O =>
      match LINK_RE_match s with
      | Some (target, len) => target :: findall_from (len - 1) rest
      | None => findall_from 0 rest
      end
    end
  end.

Definition LINK_RE_findall (text : str) : list str := findall_from 0 text.

Definition EXCLUDED : list str :=
  [lit "#"; lit "http://"; lit "https://"; lit "mailto:"; lit "tel:"; lit "//"].

(** The body of the loop of [iter_relative_links]: [None] is [continue],
    [Some target] is [yield target]. *)
Definition relative_link (raw : str) : res (option str) :=
  let target := strip raw in
  if bool_decide (target = []) || startswith_any EXCLUDED target then Ok None
  else
    target ← item0 (split target);
    target ← item0 (split1 HASH target);
    if bool_decide (target = []) then Ok None else Ok (Some target).

Fixpoint relative_links (raws : list str) : res (list str) :=
  match raws with
  | [] => Ok []
  | raw :: raws' =>
    o ← relative_link raw;
    links ← relative_links raws';
    Ok (match o with Some target => target :: links | None => links end)
  end.

(** The targets the generator yields, in order.  The generator is lazy, but
    an exception inside it ends [main] wherever it is raised, so the list
    is computed at once. *)
Definition iter_relative_links (text : str) : res (list str) :=
  relative_links (LINK_RE_findall text).

(** ** Paths and the file system *)

(** An absolute POSIX path, as the list of its components below the root. *)
Abbreviation path := (list (list N)).

Definition SEP : N := 47.

(** [str(p)] *)
Definition path_str (p : path) : str :=
  match p with
  | [] => [SEP]
  | _ => flat_map (fun part => SEP :: part) p
  end.

(** [p.name] *)
Definition path_name (p : path) : str := List.last p [].

(** [s.split("/")] *)
Fixpoint split_sep (s : str) : list str :=
  match s with
  | [] => [[]]
  | c :: rest =>
    if c =? SEP then [] :: split_sep rest
    else match split_sep rest with
         | h :: t => (c :: h) :: t
         | [] => [[c]]
         end
  end.

(** The components [pathlib] reads off a string: empty ones and [.] go. *)
Definition parse_parts (s : str) : list str :=
  filter (fun part => part ≠ [] ∧ part ≠ lit ".") (split_sep s).

(** [p / s]: an absolute [s] replaces [p].  (A string that starts with
    exactly two slashes keeps them as its root in [pathlib]; the extractor
    drops such targets, and [main] joins nothing else.) *)
Definition joinpath (p : path) (s : str) : path :=
  if startswith [SEP] s then parse_parts s else p ++ parse_parts s.

(** [p.relative_to(q)]; [None] stands for its [ValueError]. *)
Fixpoint relative_to (p q : path) : option path :=
  match q, p with
  | [], _ => Some p
  | _ :: _, [] => None
  | b :: q', a :: p' => if str_eqb a b then relative_to p' q' else None
  end.

(** The order of sequences that [<] is on [str] and on lists, and so on
    paths, which [sorted] compares by their lists of components. *)
Fixpoint lex_ltb {A} (lt eq : A → A → bool) (a b : list A) : bool :=
  match a, b with
  | _, [] => false
  | [], _ :: _ => true
  | x :: a', y :: b' => lt x y || (eq x y && lex_ltb lt eq a' b')
  end.

Definition str_ltb : str → str → bool := lex_ltb N.ltb N.eqb.
Definition path_ltb : path → path → bool := lex_ltb str_ltb str_eqb.

(** [sorted(ps)]: a stable sort. *)
Fixpoint insert_sorted (x : path) (l : list path) : list path :=
  match l with
  | [] => [x]
  | y :: l' => if path_ltb y x then y :: insert_sorted x l' else x :: l
  end.
Definition sorted (l : list path) : list path := foldr insert_sorted [] l.

(** What the script asks of the operating system.  Every call is taken to
    return: an unreadable file or a path the system refuses is outside the
    model. *)
Record filesystem := {
  is_dir : path → bool;
  listdir : path → list str;
  exists_ : path → bool;
  read_text : path → str;
  resolve : path → path;
}.

Definition iterdir (fs : filesystem) (p : path) : list path :=
  map (fun name => p ++ [name]) (listdir fs p).

(** ** [main] *)

(** The two objects [main] mutates. *)
Record state := {
  errors : list str;
  seen_names : gmap (list N) (list N);
}.

(** [errors.append(msg)] *)
Definition append (st : state) (msg : str) : state :=
  {| errors := errors st ++ [msg]; seen_names := seen_names st |}.

(** The messages, one per f-string of the script. *)
Definition msg_no_skills_dir : str := lit "skills/ directory not found".
Definition msg_missing_skill_md (skill_md : path) : str :=
  path_str skill_md ++ lit ": missing SKILL.md".
Definition msg_frontmatter (skill_md : path) (err : str) : str :=
  path_str skill_md ++ lit ": " ++ err.
Definition msg_missing_name (skill_md : path) : str :=
  path_str skill_md ++ lit ": missing name in frontmatter".
Definition msg_mismatch (skill_md : path) (name folder : str) : str :=
  path_str skill_md ++ lit ": name '" ++ name
    ++ lit "' does not match folder '" ++ folder ++ lit "'".
Definition msg_pattern (skill_md : path) (name : str) : str :=
  path_str skill_md ++ lit ": name '" ++ name
    ++ lit "' must match " ++ NAME_RE_pattern.
Definition msg_duplicate (skill_md : path) (name first : str) : str :=
  path_str skill_md ++ lit ": duplicate name '" ++ name
    ++ lit "' also in " ++ first.
Definition msg_escapes (skill_md : path) (link : str) : str :=
  path_str skill_md ++ lit ": link escapes skill dir: " ++ link.
Definition msg_missing_target (skill_md : path) (link : str) : str :=
  path_str skill_md ++ lit ": missing link target: " ++ link.

(** [if err:] on an [Optional[str]] *)
Definition truthy (err : option str) : bool :=
  match err with
  | Some (_ :: _) => true
  | _ => false
  end.

(** [(meta or {}).get("name", "")] *)
Definition get_name (meta : option dict) : str :=
  let d : dict :=
    match meta with
    | Some d => if bool_decide (d = ∅) then ∅ else d
    | None => ∅
    end in
  default [] (d !! lit "name").

(** [seen_names[name]] *)
Definition getitem (seen : gmap (list N) (list N)) (name : str) : res str :=
  match seen !! name with
  | Some v => Ok v
  | None => Raise KeyError
  end.

(** The [else] branch of [if not name]. *)
Definition check_name (skill_dir skill_md : path) (name : str) (st : state)
  : res state :=
  let st :=
    if negb (str_eqb name (path_name skill_dir))
    then append st (msg_mismatch skill_md name (path_name skill_dir))
    else st in
  let st :=
    if negb (NAME_RE_match name)
    then append st (msg_pattern skill_md name)
    else st in
  if bool_decide (is_Some (seen_names st !! name)) then
    first ← getitem (seen_names st) name;
    Ok (append st (msg_duplicate skill_md name first))
  else
    Ok {| errors := errors st;
          seen_names := <[name := path_str skill_md]> (seen_names st) |}.

(** One turn of [for link in iter_relative_links(text)]. *)
Definition check_link (fs : filesystem) (skill_dir skill_md : path)
    (st : state) (link : str) : state :=
  let target_path := resolve fs (joinpath skill_dir link) in
  match relative_to target_path (resolve fs skill_dir) with
  | None => append st (msg_escapes skill_md link)
  | Some _ =>
    if negb (exists_ fs target_path)
    then append st (msg_missing_target skill_md link)
    else st
  end.

(** One turn of [for skill_dir in sorted(...)]. *)
Definition check_skill (fs : filesystem) (st : state) (skill_dir : path)
  : res state :=
  let skill_md := joinpath skill_dir (lit "SKILL.md") in
  if negb (exists_ fs skill_md) then
    Ok (append st (msg_missing_skill_md skill_md))
  else
    let text := read_text fs skill_md in
    '(meta, err) ← parse_frontmatter text;
    if truthy err then
      Ok (append st (msg_frontmatter skill_md (default [] err)))
    else
      let name := get_name meta in
      st ← (if bool_decide (name = [])
            then Ok (append st (msg_missing_name skill_md))
            else check_name skill_dir skill_md name st);
      links ← iter_relative_links text;
      Ok (foldl (check_link fs skill_dir skill_md) st links).

Fixpoint check_skills (fs : filesystem) (st : state) (dirs : list path)
  : res state :=
  match dirs with
  | [] => Ok st
  | skill_dir :: dirs' =>
    st' ← check_skill fs st skill_dir; check_skills fs st' dirs'
  end.

(** [sorted(p for p in skills_dir.iterdir() if p.is_dir())] *)
Definition skill_dirs (fs : filesystem) (skills_dir : path) : list path :=
  sorted (List.filter (is_dir fs) (iterdir fs skills_dir)).

(** The state when the [if]/[else] on [skills_dir.is_dir()] is left. *)
Definition collect (fs : filesystem) (repo_root : path) : res state :=
  let skills_dir := joinpath repo_root (lit "skills") in
  let st := {| errors := []; seen_names := ∅ |} in
  if negb (is_dir fs skills_dir) then Ok (append st msg_no_skills_dir)
  else check_skills fs st (skill_dirs fs skills_dir).

(** The end of [main]: the printed lines and the value returned, which
    [sys.exit] makes the exit status. *)
Definition report (errs : list str) : list str * Z :=
  match errs with
  | _ :: _ =>
    (lit "Skill validation failed:" :: map (fun err => lit "- " ++ err) errs,
     1%Z)
  | [] => ([lit "Skill validation passed."], 0%Z)
  end.

(** [repo_root] is [Path(__file__).resolve().parents[1]]. *)
Definition main (fs : filesystem) (repo_root : path) : res (list str * Z) :=
  st ← collect fs repo_root;
  Ok (report (errors st)).

(** ** A file system without symbolic links, for worked examples *)

Inductive node := Dir | File (text : str).

(** [resolve] where nothing is a link: [..] steps up, and stays at the root. *)
Fixpoint normalize (acc : path) (p : path) : path :=
  match p with
  | [] => acc
  | part :: p' =>
    if str_eqb part (lit "..") then normalize (removelast acc) p'
    else normalize (acc ++ [part]) p'
  end.

Definition lookup_node (tree : list (path * node)) (p : path) : option node :=
  snd <$> List.find (fun e => bool_decide (fst e = p)) tree.

Definition children (tree : list (path * node)) (p : path) : list str :=
  omap (fun e => match relative_to (fst e) p with
                 | Some [name] => Some name
                 | _ => None
                 end) tree.

Definition tree_fs (tree : list (path * node)) : filesystem := {|
  is_dir p := match lookup_node tree p with Some Dir => true | _ => false end;
  listdir p := children tree p;
  exists_ p := bool_decide (is_Some (lookup_node tree p));
  read_text p := match lookup_node tree p with Some (File t) => t | _ => [] end;
  resolve p := normalize [] p;
|}.

(** Trees to run the validator on; the script lives in [/repo/scripts]. *)
Module Examples.

Definition REPO : path := [lit "repo"].
Definition SKILLS : path := [lit "repo"; lit "skills"].
Definition skill (folder : string) : path := SKILLS ++ [lit folder].
Definition skill_md (folder : string) : path := skill folder ++ [lit "SKILL.md"].

(** A document that declares [name] and goes on with [body]. *)
Definition document (name body : string) : str :=
  lit "---" ++ [LF] ++ lit "name: " ++ lit name ++ [LF]
  ++ lit "---" ++ [LF] ++ lit body.

(** No [skills] directory. *)
Definition bare : filesystem := tree_fs [(REPO, Dir)].

(** A [skills] directory that holds one plain file and no folder. *)
Definition empty : filesystem :=
  tree_fs [(REPO, Dir); (SKILLS, Dir); (SKILLS ++ [lit "README.md"], File [])].

(** One folder without a document, one whose document has no frontmatter. *)
Definition broken : filesystem :=
  tree_fs [(REPO, Dir); (SKILLS, Dir);
           (skill "no-doc", Dir);
           (skill "no-front", Dir);
           (skill_md "no-front", File (lit "name: no-front [x](../gone)"))].

(** A folder whose name differs from the one its document declares, with
    a link out of it, a link to a file it has, a link to one it lacks and
    a web link. *)
Definition linked : filesystem :=
  tree_fs [(REPO, Dir); (SKILLS, Dir);
           (skill "my-skill", Dir);
           (skill_md "my-skill",
            File (document "other-skill"
                    "[a](../../etc/passwd) [b](res/x.txt#top) [c](res/y.txt 'Y') [d](https://example.com/page)"));
           (skill "my-skill" ++ [lit "res"], Dir);
           (skill "my-skill" ++ [lit "res"; lit "x.txt"], File [])].

(** Three folders that declare one name. *)
Definition shared : filesystem :=
  tree_fs [(REPO, Dir); (SKILLS, Dir);
           (skill "gamma", Dir);
           (skill_md "gamma", File (document "shared-name" ""));
           (skill "alpha", Dir);
           (skill_md "alpha", File (document "shared-name" ""));
           (skill "beta", Dir);
           (skill_md "beta", File (document "shared-name" ""))].

Definition start : state := {| errors := []; seen_names := ∅ |}.

(** [k: ??v??] with each [?] a double quote, a comment with a colon, and a
    document whose one entry is [key: ?quoted value?]. *)
Definition twice_quoted : str :=
  lit "k: " ++ [QUOTE; QUOTE] ++ lit "v" ++ [QUOTE; QUOTE].
Definition comment : str := lit "# note: x".
Definition quoted : str :=
  lit "---" ++ [LF] ++ lit "key: " ++ [QUOTE] ++ lit "quoted value"
  ++ [QUOTE; LF] ++ lit "---" ++ [LF].

End Examples.

(** ** Descriptions used in the statements *)

(** The text is empty, or its first line, stripped, is not the delimiter. *)
Definition no_start (text : str) : Prop :=
  text = [] ∨ ∃ first rest, splitlines text = first :: rest ∧ strip first ≠ DELIM.

(** No line after the first is the delimiter. *)
Definition no_end (text : str) : Prop :=
  ∀ i, (1 ≤ i)%nat → splitlines text !! i ≠ Some DELIM.

(** A quote character of either kind. *)
Definition is_quote (c : N) : bool := (c =? QUOTE) || (c =? APOSTROPHE).

(** The value of a frontmatter line as the specification words it: one
    layer of surrounding matching quote characters removed if present. *)
Definition unquote_once (s : str) : str :=
  match s with
  | q :: rest =>
    match rev rest with
    | q' :: inner => if is_quote q && (q' =? q) then rev inner else s
    | [] => s
    end
  | [] => s
  end.

(** The reading of the rule for a line with a [:] that takes every such
    line: the key is what is left of the first [:], trimmed, the value what
    is right of it, trimmed and unquoted once. *)
Definition splits_as_worded (data : dict) (line : str) : Prop :=
  let key := take_while (λ c, negb (c =? COLON)) line in
  let value := drop (S (length key)) line in
  parse_line data line
  = Ok (<[strip key := unquote_once (strip value)]> data).

(** The test of the first [if] of the loop of [iter_relative_links]. *)
Definition discarded_early (raw : str) : bool :=
  bool_decide (strip raw = []) || startswith_any EXCLUDED (strip raw).

(** [target] cut at its first white space and then at its first [#]. *)
Definition cut (target : str) : str :=
  take_while (λ c, negb (c =? HASH))
    (take_while (λ c, negb (isspace c)) target).

(** What one raw match contributes. *)
Definition kept (raw : str) : option str :=
  if discarded_early raw then None else Some (cut (strip raw)).

(** What can be said of a target that is yielded. *)
Definition clean_target (t : str) : Prop :=
  t ≠ []
  ∧ Forall (λ c, isspace c = false ∧ c ≠ HASH) t
  ∧ startswith_any EXCLUDED t = false.

(** The filter of the link extractor, as the specification words it: trim;
    drop what is empty or starts with an excluded prefix; cut at the first
    white space, then at the first [#]; drop what is left empty. *)
Definition truncate_at (stop : N → bool) (s : str) : str :=
  take_while (λ c, negb (stop c)) s.

Definition spec_filter (raw : str) : option str :=
  let trimmed := strip raw in
  if bool_decide (trimmed = []) || startswith_any EXCLUDED trimmed then None
  else
    let truncated :=
      truncate_at (λ c, c =? HASH) (truncate_at isspace trimmed) in
    if bool_decide (truncated = []) then None else Some truncated.

(** [p] does not come after [q] in the order of [sorted]. *)
Definition path_le (p q : path) : Prop := path_ltb q p = false.

(** The messages the link loop can append for a document. *)
Definition about_link (skill_md : path) (e : str) : Prop :=
  ∃ link, e = msg_escapes skill_md link ∨ e = msg_missing_target skill_md link.

(** The message starts with the path of the document and [: ]. *)
Definition attributed (skill_md : path) (e : str) : Prop :=
  ∃ rest, e = path_str skill_md ++ lit ": " ++ rest.

(** How often a string occurs in a list of strings. *)
Definition count (msg : str) (l : list str) : nat :=
  length (filter (λ e, e = msg) l).

(** The entry a frontmatter line stands for, if it stands for one. *)
Definition entry (line : str) : option (str * str) :=
  if bool_decide (strip line = []) || startswith [HASH] (lstrip line) then None
  else if negb (contains COLON line) then None
  else
    let key := take_while (λ c, negb (c =? COLON)) line in
    let value := drop (S (length key)) line in
    Some (strip key, strip_chars [QUOTE; APOSTROPHE] (strip value)).

(** [s] neither starts nor ends with a character that [p] holds of. *)
Definition trimmed (p : N → bool) (s : str) : Prop :=
  (∀ c r, s = c :: r → p c = false) ∧ (∀ c r, rev s = c :: r → p c = false).

(** [fs] with another listing of its directories. *)
Definition relist (fs : filesystem) (listing : path → list str) : filesystem :=
  {| is_dir := is_dir fs;
     listdir := listing;
     exists_ := exists_ fs;
     read_text := read_text fs;
     resolve := resolve fs |}.


Section descriptions.

Context (fs : filesystem).

(** What one turn of the link loop appends. *)
Definition link_errors (skill_dir skill_md : path) (link : str) : list str :=
  match relative_to (resolve fs (joinpath skill_dir link))
          (resolve fs skill_dir) with
  | None => [msg_escapes skill_md link]
  | Some _ =>
    if exists_ fs (resolve fs (joinpath skill_dir link)) then []
    else [msg_missing_target skill_md link]
  end.

(** What the name checks append. *)
Definition name_errors (skill_dir skill_md : path) (name : str)
    (seen : gmap (list N) (list N)) : list str :=
  (if bool_decide (name = path_name skill_dir) then []
   else [msg_mismatch skill_md name (path_name skill_dir)])
  ++ (if NAME_RE_match name then [] else [msg_pattern skill_md name])
  ++ match seen !! name with
     | Some first => [msg_duplicate skill_md name first]
     | None => []
     end.

(** The registry after the name checks of one folder. *)
Definition register (skill_md : path) (name : str)
    (seen : gmap (list N) (list N)) : gmap (list N) (list N) :=
  match seen !! name with
  | Some _ => seen
  | None => <[name := path_str skill_md]> seen
  end.

(** What one folder appends. *)
Definition folder_errors (seen : gmap (list N) (list N)) (skill_dir : path)
  : list str :=
  let skill_md := joinpath skill_dir (lit "SKILL.md") in
  let text := read_text fs skill_md in
  if negb (exists_ fs skill_md) then [msg_missing_skill_md skill_md]
  else match parse_frontmatter text with
       | Ok (meta, err) =>
         if truthy err then [msg_frontmatter skill_md (default [] err)]
         else
           (if bool_decide (get_name meta = [])
            then [msg_missing_name skill_md]
            else name_errors skill_dir skill_md (get_name meta) seen)
           ++ concat (map (link_errors skill_dir skill_md)
                        (omap kept (LINK_RE_findall text)))
       | Raise _ => []
       end.

(** The registry after one folder. *)
Definition folder_seen (seen : gmap (list N) (list N)) (skill_dir : path)
  : gmap (list N) (list N) :=
  let skill_md := joinpath skill_dir (lit "SKILL.md") in
  if negb (exists_ fs skill_md) then seen
  else match parse_frontmatter (read_text fs skill_md) with
       | Ok (meta, err) =>
         if truthy err || bool_decide (get_name meta = []) then seen
         else register skill_md (get_name meta) seen
       | Raise _ => seen
       end.

(** The state after a list of folders. *)
Fixpoint after (st : state) (dirs : list path) : state :=
  match dirs with
  | [] => st
  | skill_dir :: dirs' =>
    after {| errors := errors st ++ folder_errors (seen_names st) skill_dir;
             seen_names := folder_seen (seen_names st) skill_dir |} dirs'
  end.

(** The name a folder declares: the [name] that [main] goes on to check,
    for a folder with a document whose frontmatter parses and gives a name
    that is not empty. *)
Definition declared_name (skill_dir : path) : option str :=
  let skill_md := joinpath skill_dir (lit "SKILL.md") in
  if exists_ fs skill_md then
    match parse_frontmatter (read_text fs skill_md) with
    | Ok (Some data, None) =>
      if bool_decide (get_name (Some data) = []) then None
      else Some (get_name (Some data))
    | _ => None
    end
  else None.

(** The first of [dirs] that declares [name]. *)
Definition first_declaring (name : str) (dirs : list path) : option path :=
  List.find (λ d, bool_decide (declared_name d = Some name)) dirs.

(** The reading of the duplicate-name rule that takes any two folders with
    one name: the later one reports the earlier one's document. *)
Definition later_reports_earlier (dirs : list path) : Prop :=
  ∀ pre d1 mid d2 post name,
    dirs = pre ++ d1 :: mid ++ d2 :: post →
    declared_name d1 = Some name →
    declared_name d2 = Some name →
    ∃ st st' new,
      check_skills fs {| errors := []; seen_names := ∅ |} (pre ++ d1 :: mid)
      = Ok st
      ∧ check_skill fs st d2 = Ok st'
      ∧ errors st' = errors st ++ new
      ∧ count (msg_duplicate (joinpath d2 (lit "SKILL.md")) name
                 (path_str (joinpath d1 (lit "SKILL.md")))) new = 1%nat.

End descriptions.

(** ** The model at work *)

Section runs.

Example splitlines_crlf :
  splitlines (lit "a" ++ [CR; LF] ++ lit "b" ++ [LF] ++ [LF])
  = [lit "a"; lit "b"; []].
Proof. reflexivity. Qed.

Example split_runs : split (lit "  a  bc ") = [lit "a"; lit "bc"].
Proof. reflexivity. Qed.

Example split1_first : split1 COLON (lit "a:b:c") = [lit "a"; lit "b:c"].
Proof. reflexivity. Qed.

Example strip_chars_mixed :
  strip_chars [QUOTE; APOSTROPHE] ([QUOTE; APOSTROPHE] ++ lit "v" ++ [APOSTROPHE])
  = lit "v".
Proof. reflexivity. Qed.

Example NAME_RE_accepts :
  NAME_RE_match (lit "my-skill-2") = true
  ∧ NAME_RE_match (lit "My-skill") = false
  ∧ NAME_RE_match [] = false
  ∧ NAME_RE_match (replicate 64 97) = true
  ∧ NAME_RE_match (replicate 65 97) = false
  ∧ NAME_RE_match (lit "abc" ++ [LF]) = true.
Proof. repeat split; reflexivity. Qed.

Example findall_links :
  LINK_RE_findall (lit "[a](x) [[b](y z) [c]() [d] (e) [f](g")
  = [lit "x"; lit "y z"].
Proof. reflexivity. Qed.

Example links_of_document :
  iter_relative_links (read_text Examples.linked (Examples.skill_md "my-skill"))
  = Ok [lit "../../etc/passwd"; lit "res/x.txt"; lit "res/y.txt"].
Proof. reflexivity. Qed.

Example link_out_of_folder :
  resolve Examples.linked
    (joinpath (Examples.skill "my-skill") (lit "../../etc/passwd"))
  = [lit "repo"; lit "etc"; lit "passwd"].
Proof. reflexivity. Qed.

Example folders_in_order :
  skill_dirs Examples.shared Examples.SKILLS
  = [Examples.skill "alpha"; Examples.skill "beta"; Examples.skill "gamma"].
Proof. reflexivity. Qed.

Example main_linked :
  main Examples.linked Examples.REPO
  = Ok ([lit "Skill validation failed:";
         lit "- /repo/skills/my-skill/SKILL.md: name 'other-skill' does not match folder 'my-skill'";
         lit "- /repo/skills/my-skill/SKILL.md: link escapes skill dir: ../../etc/passwd";
         lit "- /repo/skills/my-skill/SKILL.md: missing link target: res/y.txt"],
        1%Z).
Proof. reflexivity. Qed.

Example main_shared :
  main Examples.shared Examples.REPO
  = Ok ([lit "Skill validation failed:";
         lit "- /repo/skills/alpha/SKILL.md: name 'shared-name' does not match folder 'alpha'";
         lit "- /repo/skills/beta/SKILL.md: name 'shared-name' does not match folder 'beta'";
         lit "- /repo/skills/beta/SKILL.md: duplicate name 'shared-name' also in /repo/skills/alpha/SKILL.md";
         lit "- /repo/skills/gamma/SKILL.md: name 'shared-name' does not match folder 'gamma'";
         lit "- /repo/skills/gamma/SKILL.md: duplicate name 'shared-name' also in /repo/skills/alpha/SKILL.md"],
        1%Z).
Proof. reflexivity. Qed.

End runs.

(** ** Facts about the string functions *)

Section strings.

Lemma splitlines_nil_iff (text : str) : splitlines text = [] ↔ text = [].
Proof.
  split; [|by intros ->].
  destruct text as [|c rest]; [done|]. simpl.
  destruct (is_linebreak c); [done|].
  by destruct (splitlines rest).
Qed.

Lemma str_eqb_eq (a b : str) : str_eqb a b = true ↔ a = b.
Proof. unfold str_eqb. by rewrite bool_decide_eq_true. Qed.

Lemma str_eqb_neq (a b : str) : str_eqb a b = false ↔ a ≠ b.
Proof. unfold str_eqb. by rewrite bool_decide_eq_false. Qed.

Lemma index_from_Some x lines start i :
  index_from x lines start = Some i →
  (start ≤ i)%nat ∧ lines !! i = Some x
  ∧ ∀ j, (start ≤ j < i)%nat → lines !! j ≠ Some x.
Proof.
  revert start i. induction lines as [|l ls IH]; intros start i; [done|].
  simpl. destruct start as [|k].
  - destruct (str_eqb l x) eqn:E.
    + intros [= <-]. apply str_eqb_eq in E as ->.
      split; [lia|]. split; [done|]. intros j ?; lia.
    + destruct (index_from x ls 0) as [i'|] eqn:E'; [|done].
      intros [= <-]. destruct (IH _ _ E') as (_ & Hi & Hj).
      split; [lia|]. split; [done|].
      intros [|j] ?; simpl.
      * apply str_eqb_neq in E. congruence.
      * apply Hj. lia.
  - destruct (index_from x ls k) as [i'|] eqn:E'; [|done].
    intros [= <-]. destruct (IH _ _ E') as (? & Hi & Hj).
    split; [lia|]. split; [done|].
    intros [|j] ?; [lia|]. simpl. apply Hj. lia.
Qed.

Lemma index_from_None x lines start :
  index_from x lines start = None ↔
  ∀ i, (start ≤ i)%nat → lines !! i ≠ Some x.
Proof.
  revert start. induction lines as [|l ls IH]; intros start.
  - simpl. split; [|done]. intros _ i _. by destruct i.
  - simpl. destruct start as [|k].
    + destruct (str_eqb l x) eqn:E.
      * apply str_eqb_eq in E as ->. split; [done|].
        intros H. by destruct (H 0%nat ltac:(lia)).
      * apply str_eqb_neq in E.
        destruct (index_from x ls 0) eqn:E'; simpl.
        -- split; [done|]. intros H. exfalso.
           assert (index_from x ls 0 = None); [|congruence].
           apply IH. intros i _. apply (H (S i)). lia.
        -- split; [|done]. intros _ [|i] _; simpl; [congruence|].
           apply (proj1 (IH 0%nat)); [done|lia].
    + destruct (index_from x ls k) eqn:E'; simpl.
      * split; [done|]. intros H. exfalso.
        assert (index_from x ls k = None); [|congruence].
        apply IH. intros i ?. apply (H (S i)). lia.
      * split; [|done]. intros _ [|i] ?; simpl; [lia|].
        apply (proj1 (IH k)); [done|lia].
Qed.

Lemma contains_split1 c s :
  contains c s = true →
  ∃ a b, split1 c s = [a; b] ∧ s = a ++ c :: b ∧ contains c a = false.
Proof.
  induction s as [|d rest IH]; simpl; [done|].
  rewrite (N.eqb_sym c d).
  destruct (d =? c) eqn:E; simpl.
  - intros _. apply N.eqb_eq in E as ->. by exists [], rest.
  - intros H. destruct (IH H) as (a & b & -> & -> & Ha).
    exists (d :: a), b. simpl. rewrite (N.eqb_sym c d), E. by simpl.
Qed.

Lemma split1_head c s :
  ∃ h t, split1 c s = h :: t ∧ h = take_while (fun x => negb (x =? c)) s.
Proof.
  induction s as [|d rest (h & t & IH & ->)]; simpl; [by exists [], []|].
  destruct (d =? c); simpl; [by eexists _, _|].
  rewrite IH. by eexists _, _.
Qed.

Lemma take_drop_while p s : take_while p s ++ drop_while p s = s.
Proof.
  induction s as [|c r IH]; simpl; [done|].
  destruct (p c); simpl; [by rewrite IH|done].
Qed.

Lemma drop_while_head p s c r : drop_while p s = c :: r → p c = false.
Proof.
  induction s as [|d s IH]; simpl; [done|].
  destruct (p d) eqn:E; [done|]. by intros [= <- _].
Qed.

Lemma drop_while_snoc p s c :
  p c = false → drop_while p (s ++ [c]) = drop_while p s ++ [c].
Proof.
  intros Hc. induction s as [|d s IH]; simpl; [by rewrite Hc|].
  by destruct (p d).
Qed.

Lemma take_while_Forall p s : Forall (λ c, p c = true) (take_while p s).
Proof.
  induction s as [|c r IH]; simpl; [done|].
  destruct (p c) eqn:E; by constructor.
Qed.

Lemma take_while_keeps (P : N → Prop) p s :
  Forall P s → Forall P (take_while p s).
Proof.
  induction 1 as [|c r ? ? IH]; simpl; [done|].
  destruct (p c); by constructor.
Qed.

Lemma take_while_cons_true p c r :
  p c = true → take_while p (c :: r) = c :: take_while p r.
Proof. simpl. by intros ->. Qed.

Lemma strip_head s c r : strip s = c :: r → isspace c = false.
Proof.
  unfold strip, rstrip, lstrip.
  destruct (drop_while isspace s) as [|c0 r0] eqn:E; [done|].
  apply drop_while_head in E.
  change (c0 :: r0) with ([c0] ++ r0). rewrite rev_app_distr. simpl.
  rewrite drop_while_snoc, rev_app_distr by done. simpl.
  by intros [= <- _].
Qed.

Lemma split_head c r :
  isspace c = false →
  ∃ toks, split (c :: r)
          = take_while (λ x, negb (isspace x)) (c :: r) :: toks.
Proof.
  revert c. induction r as [|d r IH]; intros c Hc.
  - simpl. rewrite Hc. by eexists.
  - change (split (c :: d :: r)) with
      (if isspace c then split (d :: r)
       else if isspace d then [c] :: split (d :: r)
       else match split (d :: r) with
            | tok :: toks => (c :: tok) :: toks
            | [] => [[c]]
            end).
    rewrite Hc. rewrite take_while_cons_true by by rewrite Hc.
    destruct (isspace d) eqn:Hd.
    + simpl. rewrite Hd. by eexists.
    + destruct (IH d Hd) as [toks ->]. by eexists.
Qed.

Lemma startswith_take_while p q s :
  startswith p (take_while q s) = true → startswith p s = true.
Proof.
  revert s. induction p as [|a p IH]; intros s; [done|].
  destruct s as [|b s]; simpl; [done|].
  destruct (q b); simpl; [|done].
  intros [-> ?]%andb_true_iff. simpl. by apply IH.
Qed.

Lemma startswith_any_take_while ps q s :
  startswith_any ps s = false → startswith_any ps (take_while q s) = false.
Proof.
  unfold startswith_any. intros H.
  apply not_true_iff_false. intros (p & Hp & Hs)%existsb_exists.
  apply not_true_iff_false in H. apply H, existsb_exists.
  exists p. split; [done|]. by eapply startswith_take_while.
Qed.

End strings.

(** ** The frontmatter parser *)

Section parser.

Lemma parse_line_total data line : ∃ data', parse_line data line = Ok data'.
Proof.
  unfold parse_line.
  destruct (_ || _); [by eexists|].
  destruct (contains COLON line) eqn:E; simpl; [|by eexists].
  destruct (contains_split1 _ _ E) as (a & b & -> & _); simpl.
  by eexists.
Qed.

Lemma parse_lines_total front : ∀ data, ∃ data', parse_lines data front = Ok data'.
Proof.
  induction front as [|line front IH]; intros data; simpl; [by eexists|].
  destruct (parse_line_total data line) as [d ->]. simpl. apply IH.
Qed.

Lemma parse_frontmatter_cases text :
  (no_start text
   ∧ parse_frontmatter text = Ok (None, Some (lit "missing frontmatter start")))
  ∨ (¬ no_start text ∧ no_end text
     ∧ parse_frontmatter text = Ok (None, Some (lit "missing frontmatter end")))
  ∨ (¬ no_start text ∧ ¬ no_end text
     ∧ ∃ data, parse_frontmatter text = Ok (Some data, None)).
Proof.
  unfold parse_frontmatter, no_start, no_end.
  destruct (splitlines text) as [|first rest] eqn:Hl.
  { left. split; [|done]. left. by apply splitlines_nil_iff. }
  assert (text ≠ []) as Hne by (intros ->; done).
  destruct (str_eqb (strip first) DELIM) eqn:E; simpl.
  2:{ left. split; [|done]. right. exists first, rest.
      split; [done|]. by apply str_eqb_neq. }
  apply str_eqb_eq in E.
  assert (¬ (text = [] ∨ ∃ f r, first :: rest = f :: r ∧ strip f ≠ DELIM)) as HA.
  { intros [?|(f & r & [= <- <-] & ?)]; done. }
  right. destruct (index_from DELIM rest 0) as [e|] eqn:Hi; simpl.
  - right. split; [done|]. split.
    + intros H. apply index_from_Some in Hi as (_ & Hi & _).
      apply (H (S e)); [lia|done].
    + destruct (parse_lines_total (slice (first :: rest) 1 (S e)) ∅) as [d ->].
      by exists d.
  - left. split; [done|]. split; [|done].
    intros [|i] ?; [lia|]. simpl.
    apply (proj1 (index_from_None _ _ _) Hi). lia.
Qed.

Lemma parse_frontmatter_inv text meta err :
  parse_frontmatter text = Ok (meta, err) →
  (meta = None ∧ err = Some (lit "missing frontmatter start") ∧ no_start text)
  ∨ (meta = None ∧ err = Some (lit "missing frontmatter end")
     ∧ ¬ no_start text ∧ no_end text)
  ∨ (is_Some meta ∧ err = None ∧ ¬ no_start text ∧ ¬ no_end text).
Proof.
  intros H.
  destruct (parse_frontmatter_cases text)
    as [(? & E)|[(? & ? & E)|(? & ? & d & E)]];
    rewrite E in H; injection H as <- <-; eauto 10.
Qed.

(** C3: [parse_frontmatter] fails with "missing frontmatter start" exactly
    when the text is empty or its first line, stripped, is not [---];
    otherwise with "missing frontmatter end" exactly when no later line is
    [---]; otherwise it returns a mapping.  The three outcomes exclude one
    another. *)
Theorem parse_frontmatter_failure_reasons (text : str) :
  (parse_frontmatter text = Ok (None, Some (lit "missing frontmatter start"))
   ↔ no_start text)
  ∧ (parse_frontmatter text = Ok (None, Some (lit "missing frontmatter end"))
     ↔ ¬ no_start text ∧ no_end text)
  ∧ ((∃ data, parse_frontmatter text = Ok (Some data, None))
     ↔ ¬ no_start text ∧ ¬ no_end text).
Proof.
  split; [|split]; (split; [intros H|intros HA]).
  - by apply parse_frontmatter_inv in H
      as [(_ & _ & ?)|[(_ & [=] & _)|(_ & [=] & _)]].
  - by destruct (parse_frontmatter_cases text) as [(? & E)|[(? & _)|(? & _)]].
  - by apply parse_frontmatter_inv in H
      as [(_ & [=] & _)|[(_ & _ & ? & ?)|(_ & [=] & _)]].
  - destruct HA as [HA HB].
    by destruct (parse_frontmatter_cases text)
      as [(? & _)|[(_ & _ & E)|(_ & ? & _)]].
  - destruct H as [d H].
    by apply parse_frontmatter_inv in H
      as [([=] & _)|[([=] & _)|(_ & _ & ? & ?)]].
  - destruct HA as [HA HB].
    by destruct (parse_frontmatter_cases text)
      as [(? & _)|[(_ & ? & _)|(_ & _ & E)]].
Qed.

Lemma parse_frontmatter_shape (text : str) :
  ∃ meta err,
    parse_frontmatter text = Ok (meta, err)
    ∧ ((is_Some meta ∧ err = None)
       ∨ (meta = None ∧ ∃ reason, err = Some reason ∧ reason ≠ [])).
Proof.
  destruct (parse_frontmatter_cases text)
    as [(_ & E)|[(_ & _ & E)|(_ & _ & d & E)]]; rewrite E;
    eexists _, _; (split; [done|]).
  - right. split; [done|]. by eexists.
  - right. split; [done|]. by eexists.
  - left. by split.
Qed.

(** C9: [parse_frontmatter] returns, and returns a pair of which exactly one
    half is [None]: a mapping with no reason, or no mapping with a reason
    that is not the empty string, so that [if err:] tells the two apart. *)
Theorem parse_frontmatter_exactly_one_none (text : str) :
  ∃ meta err,
    parse_frontmatter text = Ok (meta, err)
    ∧ ((is_Some meta ∧ err = None)
       ∨ (meta = None ∧ ∃ reason, err = Some reason ∧ reason ≠ []))
    ∧ (truthy err = true ↔ meta = None).
Proof.
  destruct (parse_frontmatter_shape text) as (meta & err & E & H).
  exists meta, err. split; [done|]. split; [done|].
  destruct H as [[[d ->] ->]|[-> (r & -> & Hr)]]; [done|].
  by destruct r.
Qed.

End parser.

(** ** Lines of the frontmatter *)

Section lines.

Lemma split1_app sep key value :
  contains sep key = false → split1 sep (key ++ sep :: value) = [key; value].
Proof.
  induction key as [|c key IH]; simpl.
  - by rewrite N.eqb_refl.
  - rewrite (N.eqb_sym sep c). destruct (c =? sep); simpl; [done|].
    intros H. by rewrite IH.
Qed.

Lemma drop_while_nil p s : drop_while p s = [] → Forall (λ c, p c = true) s.
Proof.
  induction s as [|c s IH]; simpl; [done|].
  destruct (p c) eqn:E; [|done]. intros H. constructor; auto.
Qed.

Lemma strip_nil s : strip s = [] → Forall (λ c, isspace c = true) s.
Proof.
  unfold strip, rstrip, lstrip. intros H.
  apply (f_equal (@rev N)) in H. rewrite rev_involutive in H. simpl in H.
  apply drop_while_nil in H. apply drop_while_nil.
  destruct (drop_while isspace s) as [|c r] eqn:E; [done|].
  apply drop_while_head in E.
  apply Forall_forall with (x := c) in H; [congruence|].
  apply list_elem_of_In, in_rev. rewrite rev_involutive. by left.
Qed.

Lemma colon_line_not_blank key value : strip (key ++ COLON :: value) ≠ [].
Proof.
  intros H%strip_nil.
  apply Forall_forall with (x := COLON) in H; [done|].
  apply list_elem_of_In, in_app_iff. right. by left.
Qed.

Lemma contains_app c a b : contains c (a ++ c :: b) = true.
Proof.
  unfold contains. apply existsb_exists. exists c.
  split; [|apply N.eqb_refl]. apply in_app_iff. right. by left.
Qed.

Lemma parse_line_entry data key value :
  contains COLON key = false →
  startswith [HASH] (lstrip (key ++ COLON :: value)) = false →
  parse_line data (key ++ COLON :: value)
  = Ok (<[strip key := strip_chars [QUOTE; APOSTROPHE] (strip value)]> data).
Proof.
  intros Hkey Hcomment. unfold parse_line.
  rewrite bool_decide_eq_false_2 by apply colon_line_not_blank.
  rewrite Hcomment, contains_app. cbn [orb negb].
  by rewrite split1_app.
Qed.

Lemma parse_lines_snoc front line : ∀ data,
  parse_lines data (front ++ [line])
  = (data' ← parse_lines data front; parse_line data' line).
Proof.
  induction front as [|l front IH]; intros data; simpl.
  - by destruct (parse_line data line).
  - destruct (parse_line data l); simpl; [apply IH|done].
Qed.

(** What [strip] with the two quote characters leaves. *)
Lemma strip_chars_one_layer q inner :
  is_quote q = true →
  (∀ c r, inner = c :: r → is_quote c = false) →
  (∀ c r, rev inner = c :: r → is_quote c = false) →
  strip_chars [QUOTE; APOSTROPHE] (q :: inner ++ [q]) = inner.
Proof.
  intros Hq Hfirst Hlast. unfold strip_chars.
  set (p := in_chars [QUOTE; APOSTROPHE]).
  assert (∀ c, p c = is_quote c) as Hin.
  { intros c. unfold p, in_chars, is_quote. simpl. by rewrite orb_false_r. }
  assert (∀ s, (∀ c r, s = c :: r → is_quote c = false) →
               drop_while p s = s) as Hkeep.
  { intros [|c r] H; [done|]. simpl. by rewrite Hin, (H c r). }
  assert (∀ s, drop_while p (q :: s) = drop_while p s) as Hdrop.
  { intros s. simpl. by rewrite Hin, Hq. }
  rewrite Hdrop. destruct inner as [|c r].
  - simpl. by rewrite Hin, Hq.
  - rewrite (Hkeep ((c :: r) ++ [q])).
    2:{ intros c' r' [= <- _]. by eapply Hfirst. }
    rewrite rev_app_distr. change (rev [q] ++ rev (c :: r))
      with (q :: rev (c :: r)).
    rewrite Hdrop, Hkeep by done. apply rev_involutive.
Qed.

End lines.

(** C2, as the code has it: a line with a [:] that is not a comment gives
    the entry whose key is what is left of the first [:], stripped, and
    whose value is what is right of it, stripped and then rid of every
    quote character of either kind at its two ends, matching or not; the
    entry is made on top of those of the lines before.  A value in one layer
    of matching quotes comes out bare, as [key: "quoted value"] does. *)
Theorem frontmatter_line_split (data : dict) (key value : str) :
  let line := key ++ COLON :: value in
  let stored := strip_chars [QUOTE; APOSTROPHE] (strip value) in
  contains COLON key = false →
  startswith [HASH] (lstrip line) = false →
  parse_line data line = Ok (<[strip key := stored]> data)
  ∧ (∀ front before,
       parse_lines data front = Ok before →
       parse_lines data (front ++ [line])
       = Ok (<[strip key := stored]> before))
  ∧ (∀ q inner,
       is_quote q = true →
       strip value = q :: inner ++ [q] →
       (∀ c r, inner = c :: r → is_quote c = false) →
       (∀ c r, rev inner = c :: r → is_quote c = false) →
       stored = inner)
  ∧ parse_frontmatter Examples.quoted
    = Ok (Some {[lit "key" := lit "quoted value"]}, None).
Proof.
  intros line stored Hkey Hcomment.
  split; [by apply parse_line_entry|]. split; [|split].
  - intros front before Hfront. rewrite parse_lines_snoc, Hfront.
    by apply parse_line_entry.
  - intros q inner Hq Hv Hfirst Hlast. unfold stored. rewrite Hv.
    by apply strip_chars_one_layer.
  - reflexivity.
Qed.

Lemma frontmatter_line_split_witness :
  parse_line ∅ (lit "key: " ++ [QUOTE] ++ lit "quoted value" ++ [QUOTE])
  = Ok {[lit "key" := lit "quoted value"]}.
Proof.
  apply (proj1 (frontmatter_line_split ∅ (lit "key")
                  (lit " " ++ [QUOTE] ++ lit "quoted value" ++ [QUOTE])
                  ltac:(reflexivity) ltac:(reflexivity))).
Defined.

(** A value in two layers of quotes loses both; a comment with a [:] gives
    no entry. *)
Lemma quotes_and_comments_differ :
  (contains COLON Examples.twice_quoted = true
   ∧ parse_line ∅ Examples.twice_quoted = Ok {[lit "k" := lit "v"]}
   ∧ ¬ splits_as_worded ∅ Examples.twice_quoted)
  ∧ (contains COLON Examples.comment = true
     ∧ parse_line ∅ Examples.comment = Ok ∅
     ∧ ¬ splits_as_worded ∅ Examples.comment).
Proof.
  split; (split; [reflexivity|]); (split; [reflexivity|]);
    unfold splits_as_worded; intros H.
  - apply (f_equal (λ r, match r with
                          | Ok d => d !! lit "k"
                          | Raise _ => None
                          end)) in H.
    vm_compute in H. discriminate H.
  - apply (f_equal (λ r, match r with
                          | Ok d => d !! lit "# note"
                          | Raise _ => None
                          end)) in H.
    vm_compute in H. discriminate H.
Qed.

(** ** The link extractor *)

Section links.

Lemma kept_head raw :
  discarded_early raw = false →
  ∃ c r, strip raw = c :: r ∧ isspace c = false ∧ c ≠ HASH.
Proof.
  unfold discarded_early. intros [H1 H2]%orb_false_iff.
  apply bool_decide_eq_false in H1.
  destruct (strip raw) as [|c r] eqn:E; [done|].
  exists c, r. split; [done|]. split; [by eapply strip_head|].
  intros ->. by vm_compute in H2.
Qed.

Lemma relative_link_kept raw :
  discarded_early raw = false →
  item0 (split (strip raw))
    = Ok (take_while (λ c, negb (isspace c)) (strip raw))
  ∧ item0 (split1 HASH (take_while (λ c, negb (isspace c)) (strip raw)))
    = Ok (cut (strip raw))
  ∧ cut (strip raw) ≠ []
  ∧ relative_link raw = Ok (Some (cut (strip raw))).
Proof.
  intros H. destruct (kept_head raw H) as (c & r & E & Hc & Hh).
  unfold relative_link. fold (discarded_early raw). rewrite H, E.
  destruct (split_head c r Hc) as [toks Htok].
  destruct (split1_head HASH (take_while (λ c, negb (isspace c)) (c :: r)))
    as (h & t & Hcut & ->).
  fold (cut (c :: r)) in Hcut.
  assert (cut (c :: r) ≠ []) as Hne.
  { unfold cut. simpl. rewrite Hc. simpl.
    by apply N.eqb_neq in Hh as ->. }
  rewrite Htok. unfold mbind, res_bind. cbn [item0 bind].
  rewrite Hcut. cbn [item0 bind].
  by rewrite bool_decide_eq_false_2.
Qed.

Lemma relative_link_discarded raw :
  discarded_early raw = true → relative_link raw = Ok None.
Proof. unfold relative_link. fold (discarded_early raw). by intros ->. Qed.

Lemma relative_link_eq raw : relative_link raw = Ok (kept raw).
Proof.
  unfold kept. destruct (discarded_early raw) eqn:E.
  - by apply relative_link_discarded.
  - by apply relative_link_kept.
Qed.

Lemma relative_links_eq raws : relative_links raws = Ok (omap kept raws).
Proof.
  induction raws as [|raw raws IH]; simpl; [done|].
  rewrite relative_link_eq, IH. simpl. by destruct (kept raw).
Qed.

Lemma iter_relative_links_eq text :
  iter_relative_links text = Ok (omap kept (LINK_RE_findall text)).
Proof. apply relative_links_eq. Qed.

Lemma cut_Forall s : Forall (λ c, isspace c = false ∧ c ≠ HASH) (cut s).
Proof.
  unfold cut. apply Forall_and. split.
  - apply take_while_keeps.
    eapply Forall_impl; [apply take_while_Forall|].
    by intros c ?%negb_true_iff.
  - eapply Forall_impl; [apply take_while_Forall|].
    intros c Hc%negb_true_iff. by apply N.eqb_neq.
Qed.

Lemma kept_clean raw t : kept raw = Some t → clean_target t.
Proof.
  unfold kept. destruct (discarded_early raw) eqn:E; [done|].
  intros [= <-]. split; [|split].
  - by apply relative_link_kept.
  - apply cut_Forall.
  - unfold cut. do 2 apply startswith_any_take_while.
    unfold discarded_early in E. by apply orb_false_iff in E as [_ ?].
Qed.

Lemma kept_spec_filter raw : kept raw = spec_filter raw.
Proof.
  unfold kept, spec_filter. fold (discarded_early raw).
  destruct (discarded_early raw) eqn:E; [done|].
  change (truncate_at _ (truncate_at _ (strip raw))) with (cut (strip raw)).
  rewrite bool_decide_eq_false_2; [done|by apply relative_link_kept].
Qed.

(** C4: each raw match goes through the filter the specification describes,
    step by step and in that order, and the extractor yields what the filter
    keeps; [https://example.com/page] is dropped by it, is never among the
    yielded targets, and so adds no error. *)
Theorem iter_relative_links_pipeline (text : str) :
  (∀ raw, relative_link raw = Ok (spec_filter raw))
  ∧ iter_relative_links text = Ok (omap spec_filter (LINK_RE_findall text))
  ∧ relative_link (lit "https://example.com/page") = Ok None
  ∧ (lit "https://example.com/page"
       ∉ omap spec_filter (LINK_RE_findall text))
  ∧ (∀ fs skill_dir skill_md st,
       foldl (check_link fs skill_dir skill_md) st
         (omap spec_filter [lit "https://example.com/page"]) = st).
Proof.
  assert (∀ raw, relative_link raw = Ok (spec_filter raw)) as Hstep.
  { intros raw. by rewrite relative_link_eq, kept_spec_filter. }
  split; [done|]. split.
  { rewrite iter_relative_links_eq. f_equal.
    induction (LINK_RE_findall text) as [|raw raws IH]; csimpl; [done|].
    by rewrite kept_spec_filter, IH. }
  split; [by rewrite Hstep|]. split; [|done].
  intros (raw & _ & Hraw)%list_elem_of_omap.
  rewrite <-kept_spec_filter in Hraw. apply kept_clean in Hraw as (_ & _ & H).
  by vm_compute in H.
Qed.

(** C10: the extractor returns, and every target it yields is non-empty, has
    no white space and no [#], and starts with none of the excluded
    prefixes; a raw match that passes the first test of the loop is always
    yielded, so the last [if not target] never discards anything. *)
Theorem yielded_targets_clean (text : str) :
  (∃ links, iter_relative_links text = Ok links ∧ Forall clean_target links)
  ∧ (∀ raw,
       bool_decide (strip raw = []) || startswith_any EXCLUDED (strip raw)
         = false →
       ∃ token target,
         item0 (split (strip raw)) = Ok token
         ∧ item0 (split1 HASH token) = Ok target
         ∧ target ≠ []
         ∧ relative_link raw = Ok (Some target)).
Proof.
  split.
  - eexists. split; [apply iter_relative_links_eq|].
    apply Forall_forall. intros t (raw & _ & Hraw)%list_elem_of_omap.
    by eapply kept_clean.
  - intros raw H. eexists _, _. by apply relative_link_kept.
Qed.

Lemma yielded_targets_clean_witness :
  ∃ token target,
    item0 (split (strip (lit " docs/a.md#top 'A' "))) = Ok token
    ∧ item0 (split1 HASH token) = Ok target
    ∧ target ≠ []
    ∧ relative_link (lit " docs/a.md#top 'A' ") = Ok (Some target).
Proof.
  apply (proj2 (yielded_targets_clean [])). vm_compute. reflexivity.
Defined.

End links.

(** ** The order folders are taken in *)

Section lexicographic.

Context {A : Type} (lt eq : A → A → bool).
Hypothesis eq_spec : ∀ x y, eq x y = true ↔ x = y.
Hypothesis lt_irrefl : ∀ x, lt x x = false.
Hypothesis lt_trans : ∀ x y z, lt x y = true → lt y z = true → lt x z = true.
Hypothesis lt_total : ∀ x y, x = y ∨ lt x y = true ∨ lt y x = true.

Lemma lex_ltb_cons x a y b :
  lex_ltb lt eq (x :: a) (y :: b) = true
  ↔ lt x y = true ∨ (x = y ∧ lex_ltb lt eq a b = true).
Proof.
  simpl. rewrite orb_true_iff, andb_true_iff, eq_spec. done.
Qed.

Lemma lex_ltb_irrefl a : lex_ltb lt eq a a = false.
Proof.
  induction a as [|x a IH]; [done|].
  apply not_true_iff_false. rewrite lex_ltb_cons.
  intros [H|[_ H]]; by rewrite ?lt_irrefl, ?IH in H.
Qed.

Lemma lex_ltb_trans a : ∀ b c,
  lex_ltb lt eq a b = true → lex_ltb lt eq b c = true
  → lex_ltb lt eq a c = true.
Proof.
  induction a as [|x a IH]; intros [|y b] [|z c]; try done.
  rewrite !lex_ltb_cons.
  intros [Hxy|[-> Hab]] [Hyz|[-> Hbc]]; eauto.
Qed.

Lemma lex_ltb_total a : ∀ b,
  a = b ∨ lex_ltb lt eq a b = true ∨ lex_ltb lt eq b a = true.
Proof.
  induction a as [|x a IH]; intros [|y b]; auto.
  rewrite !lex_ltb_cons.
  destruct (lt_total x y) as [->|[?|?]]; auto.
  destruct (IH b) as [->|[?|?]]; auto.
Qed.

End lexicographic.

Section order.

Lemma str_eqb_spec (a b : str) : str_eqb a b = true ↔ a = b.
Proof. apply str_eqb_eq. Qed.

Lemma path_ltb_irrefl p : path_ltb p p = false.
Proof.
  apply lex_ltb_irrefl; [apply str_eqb_spec|].
  intros a. apply lex_ltb_irrefl; [apply N.eqb_eq|apply N.ltb_irrefl].
Qed.

Lemma path_ltb_trans p q r :
  path_ltb p q = true → path_ltb q r = true → path_ltb p r = true.
Proof.
  apply lex_ltb_trans; [apply str_eqb_spec|].
  intros a b c. apply lex_ltb_trans; [apply N.eqb_eq|].
  intros x y z. rewrite !N.ltb_lt. lia.
Qed.

Lemma path_ltb_total p q :
  p = q ∨ path_ltb p q = true ∨ path_ltb q p = true.
Proof.
  apply lex_ltb_total; [apply str_eqb_spec|].
  intros a b. apply lex_ltb_total; [apply N.eqb_eq|].
  intros x y. rewrite !N.ltb_lt. lia.
Qed.

Lemma path_lt_le p q : path_ltb p q = true → path_le p q.
Proof.
  intros H. unfold path_le. apply not_true_iff_false. intros H'.
  pose proof (path_ltb_trans _ _ _ H H') as Hpp.
  by rewrite path_ltb_irrefl in Hpp.
Qed.

Lemma path_le_trans p q r : path_le p q → path_le q r → path_le p r.
Proof.
  unfold path_le. intros Hpq Hqr. apply not_true_iff_false. intros Hrp.
  destruct (path_ltb_total p q) as [->|[H|H]]; [congruence| |congruence].
  pose proof (path_ltb_trans _ _ _ Hrp H). congruence.
Qed.

Lemma insert_sorted_perm x l : insert_sorted x l ≡ₚ x :: l.
Proof.
  induction l as [|y l IH]; simpl; [done|].
  destruct (path_ltb y x); [|done]. rewrite IH. apply Permutation_swap.
Qed.

Lemma insert_sorted_sorted x l :
  StronglySorted path_le l → StronglySorted path_le (insert_sorted x l).
Proof.
  induction 1 as [|y l Hl IH Hy]; simpl.
  - by repeat constructor.
  - destruct (path_ltb y x) eqn:E.
    + constructor; [done|]. rewrite insert_sorted_perm.
      constructor; [by apply path_lt_le|done].
    + constructor; [by constructor|]. constructor; [done|].
      eapply Forall_impl; [exact Hy|]. intros z. by apply path_le_trans.
Qed.

Lemma sorted_perm l : sorted l ≡ₚ l.
Proof.
  induction l as [|x l IH]; simpl; [done|].
  by rewrite insert_sorted_perm, IH.
Qed.

Lemma sorted_sorted l : StronglySorted path_le (sorted l).
Proof.
  induction l as [|x l IH]; simpl; [constructor|].
  by apply insert_sorted_sorted.
Qed.

(** The folders are taken in lexicographic order, each once. *)
Lemma skill_dirs_sorted fs skills_dir :
  StronglySorted path_le (skill_dirs fs skills_dir)
  ∧ skill_dirs fs skills_dir ≡ₚ List.filter (is_dir fs) (iterdir fs skills_dir).
Proof. split; [apply sorted_sorted|apply sorted_perm]. Qed.

Lemma earlier_not_after l pre d2 post d1 :
  StronglySorted path_le l → l = pre ++ d2 :: post → d1 ∈ pre →
  path_ltb d2 d1 = false.
Proof.
  intros Hl -> Hin. revert Hl. induction pre as [|d pre IH]; intros Hl.
  - by apply elem_of_nil in Hin.
  - apply StronglySorted_inv in Hl as [Hl Hd].
    apply elem_of_cons in Hin as [->|Hin]; [|by apply IH].
    apply Forall_forall with (x := d2) in Hd; [done|].
    apply elem_of_app. right. by left.
Qed.

End order.

(** ** The validator *)

Section validator.

Context (fs : filesystem).

Lemma count_nil msg : count msg [] = 0%nat.
Proof. done. Qed.

Lemma count_app msg l1 l2 :
  count msg (l1 ++ l2) = (count msg l1 + count msg l2)%nat.
Proof. unfold count. by rewrite filter_app, length_app. Qed.

Lemma count_cons_eq msg l : count msg (msg :: l) = S (count msg l).
Proof. unfold count. by rewrite filter_cons_True. Qed.

Lemma count_cons_ne msg e l : e ≠ msg → count msg (e :: l) = count msg l.
Proof. intros. unfold count. by rewrite filter_cons_False. Qed.

Lemma count_none msg l : Forall (λ e, e ≠ msg) l → count msg l = 0%nat.
Proof.
  induction 1 as [|e l ? ? IH]; [done|]. by rewrite count_cons_ne.
Qed.

(** Two messages about one document differ when what follows the path does. *)
Lemma msg_differ (p a b : str) : a ≠ b → p ++ a ≠ p ++ b.
Proof. intros H E. by apply app_inv_head in E. Qed.

Lemma check_link_eq skill_dir skill_md st link :
  check_link fs skill_dir skill_md st link
  = {| errors := errors st ++ link_errors fs skill_dir skill_md link;
       seen_names := seen_names st |}.
Proof.
  unfold check_link, link_errors, append. destruct st as [errs seen]. simpl.
  destruct (relative_to _ _); [|done].
  destruct (exists_ _ _); simpl; [|done]. by rewrite app_nil_r.
Qed.

Lemma check_links_eq skill_dir skill_md links : ∀ st,
  foldl (check_link fs skill_dir skill_md) st links
  = {| errors := errors st
                 ++ concat (map (link_errors fs skill_dir skill_md) links);
       seen_names := seen_names st |}.
Proof.
  induction links as [|link links IH]; intros [errs seen]; simpl.
  - by rewrite app_nil_r.
  - rewrite IH, check_link_eq. simpl. by rewrite app_assoc.
Qed.

Lemma check_name_eq skill_dir skill_md name st :
  check_name skill_dir skill_md name st
  = Ok {| errors := errors st
                    ++ name_errors skill_dir skill_md name (seen_names st);
          seen_names := register skill_md name (seen_names st) |}.
Proof.
  unfold check_name, name_errors, register, str_eqb, append, getitem.
  destruct st as [errs seen].
  destruct (bool_decide (name = _)), (NAME_RE_match name); simpl;
    (case_bool_decide as H; destruct (seen !! name) as [first|] eqn:E;
     [|by destruct H| |]); simpl; rewrite ?app_nil_r, <-?app_assoc;
    try done; by destruct H.
Qed.

Lemma check_skill_eq st skill_dir :
  check_skill fs st skill_dir
  = Ok {| errors := errors st ++ folder_errors fs (seen_names st) skill_dir;
          seen_names := folder_seen fs (seen_names st) skill_dir |}.
Proof.
  unfold check_skill, folder_errors, folder_seen.
  destruct (negb (exists_ fs _)); [by destruct st|].
  destruct (parse_frontmatter_shape
              (read_text fs (joinpath skill_dir (lit "SKILL.md"))))
    as (meta & err & -> & _).
  simpl. destruct (truthy err); simpl; [by destruct st|].
  rewrite iter_relative_links_eq.
  case_bool_decide; simpl.
  - rewrite check_links_eq. simpl. by rewrite <-app_assoc.
  - rewrite check_name_eq. simpl. rewrite check_links_eq. simpl.
    by rewrite <-app_assoc.
Qed.

Lemma check_skills_eq dirs : ∀ st, check_skills fs st dirs = Ok (after fs st dirs).
Proof.
  induction dirs as [|d dirs IH]; intros st; simpl; [done|].
  rewrite check_skill_eq. simpl. apply IH.
Qed.

Lemma after_app l1 l2 st : after fs st (l1 ++ l2) = after fs (after fs st l1) l2.
Proof. revert st. induction l1 as [|d l1 IH]; intros st; simpl; [done|]. apply IH. Qed.

End validator.

(** C7: a folder without [SKILL.md] gets one error and nothing else is
    done for it; a folder whose frontmatter does not parse gets the reason
    of the parser as its one error, and neither its name nor its links are
    looked at.  In both cases the registry is left as it was. *)
Theorem missing_document_or_frontmatter_stops
    (fs : filesystem) (st : state) (skill_dir : path) :
  let skill_md := joinpath skill_dir (lit "SKILL.md") in
  (exists_ fs skill_md = false →
   check_skill fs st skill_dir
   = Ok {| errors := errors st ++ [msg_missing_skill_md skill_md];
           seen_names := seen_names st |})
  ∧ (∀ reason,
       exists_ fs skill_md = true →
       parse_frontmatter (read_text fs skill_md) = Ok (None, Some reason) →
       check_skill fs st skill_dir
       = Ok {| errors := errors st ++ [path_str skill_md ++ lit ": " ++ reason];
               seen_names := seen_names st |}).
Proof.
  intros skill_md. split.
  - intros H. rewrite check_skill_eq. unfold folder_errors, folder_seen.
    fold skill_md. by rewrite H.
  - intros reason H Hp. rewrite check_skill_eq.
    assert (truthy (Some reason) = true) as Ht.
    { by apply parse_frontmatter_inv in Hp
        as [(_ & [= ->] & _)|[(_ & [= ->] & _)|(_ & [=] & _)]]. }
    unfold folder_errors, folder_seen. fold skill_md.
    rewrite H, Hp. cbn [negb]. by rewrite Ht.
Qed.

Lemma missing_document_or_frontmatter_stops_witness :
  check_skill Examples.broken Examples.start (Examples.skill "no-doc")
  = Ok {| errors := [lit "/repo/skills/no-doc/SKILL.md: missing SKILL.md"];
          seen_names := ∅ |}
  ∧ check_skill Examples.broken Examples.start (Examples.skill "no-front")
    = Ok {| errors :=
              [lit "/repo/skills/no-front/SKILL.md: missing frontmatter start"];
            seen_names := ∅ |}.
Proof.
  split.
  - apply (proj1 (missing_document_or_frontmatter_stops
                    Examples.broken Examples.start (Examples.skill "no-doc"))).
    reflexivity.
  - apply (proj2 (missing_document_or_frontmatter_stops
                    Examples.broken Examples.start (Examples.skill "no-front"))
             (lit "missing frontmatter start")); reflexivity.
Defined.

(** C8: [main] returns, and what it prints and returns is [report] of the
    errors collected: with errors, the header, one [- message] line per
    error in the order collected, and status 1; without, the one line that
    says so and status 0.  No [skills] directory gives exactly the one error
    that says so, and status 1; a [skills] directory without folders gives
    no error, hence status 0. *)
Theorem verdict_from_errors (fs : filesystem) (repo_root : path) :
  let skills_dir := joinpath repo_root (lit "skills") in
  ∃ st,
    collect fs repo_root = Ok st
    ∧ main fs repo_root = Ok (report (errors st))
    ∧ (∀ errs, errs ≠ [] →
         report errs
         = (lit "Skill validation failed:"
              :: map (λ err, lit "- " ++ err) errs, 1%Z))
    ∧ report [] = ([lit "Skill validation passed."], 0%Z)
    ∧ (is_dir fs skills_dir = false →
       errors st = [lit "skills/ directory not found"]
       ∧ snd (report (errors st)) = 1%Z)
    ∧ (is_dir fs skills_dir = true →
       List.filter (is_dir fs) (iterdir fs skills_dir) = [] →
       errors st = []
       ∧ main fs repo_root = Ok ([lit "Skill validation passed."], 0%Z)).
Proof.
  intros skills_dir.
  assert (∃ st, collect fs repo_root = Ok st) as [st Hst].
  { unfold collect. destruct (negb _); [by eexists|].
    rewrite check_skills_eq. by eexists. }
  exists st. split; [done|]. split; [unfold main; by rewrite Hst|].
  split; [by intros [|e errs]|]. split; [done|].
  unfold main. rewrite Hst. unfold collect in Hst. fold skills_dir in Hst.
  split.
  - intros H. rewrite H in Hst. by injection Hst as <-.
  - intros H Hnone. rewrite H in Hst. unfold skill_dirs in Hst.
    rewrite Hnone in Hst. by injection Hst as <-.
Qed.

Lemma verdict_from_errors_witness :
  (∃ st, collect Examples.bare Examples.REPO = Ok st
         ∧ errors st = [lit "skills/ directory not found"]
         ∧ snd (report (errors st)) = 1%Z)
  ∧ main Examples.empty Examples.REPO
    = Ok ([lit "Skill validation passed."], 0%Z).
Proof.
  split.
  - destruct (verdict_from_errors Examples.bare Examples.REPO)
      as (st & Hc & _ & _ & _ & Habsent & _).
    exists st. split; [exact Hc|]. apply Habsent. reflexivity.
  - destruct (verdict_from_errors Examples.empty Examples.REPO)
      as (st & _ & _ & _ & _ & _ & Hnone).
    apply Hnone; reflexivity.
Defined.

(** ** Telling the messages apart *)

Section messages.

Context (fs : filesystem) (skill_dir skill_md : path).

Ltac differ :=
  let H := fresh in
  intros H;
  unfold msg_missing_skill_md, msg_frontmatter, msg_missing_name,
    msg_mismatch, msg_pattern, msg_duplicate, msg_escapes,
    msg_missing_target, NAME_RE_pattern in H;
  repeat apply app_inv_head in H;
  cbn in H; first [discriminate H | congruence].

Lemma escapes_inj l1 l2 :
  msg_escapes skill_md l1 = msg_escapes skill_md l2 → l1 = l2.
Proof. unfold msg_escapes. intros H. by do 2 apply app_inv_head in H. Qed.

Lemma missing_target_inj l1 l2 :
  msg_missing_target skill_md l1 = msg_missing_target skill_md l2 → l1 = l2.
Proof. unfold msg_missing_target. intros H. by do 2 apply app_inv_head in H. Qed.

Lemma duplicate_inj name p1 p2 :
  msg_duplicate skill_md name p1 = msg_duplicate skill_md name p2 → p1 = p2.
Proof. unfold msg_duplicate. intros H. by do 4 apply app_inv_head in H. Qed.

Lemma escapes_not_missing_target l1 l2 :
  msg_escapes skill_md l1 ≠ msg_missing_target skill_md l2.
Proof. differ. Qed.

Lemma name_errors_not_about_link name seen :
  Forall (λ e, ¬ about_link skill_md e) (name_errors skill_dir skill_md name seen).
Proof.
  assert (∀ e, (∀ link, e ≠ msg_escapes skill_md link)
               → (∀ link, e ≠ msg_missing_target skill_md link)
               → Forall (λ e, ¬ about_link skill_md e) [e]) as Hone.
  { intros e H1 H2. apply Forall_singleton. intros (link & [H|H]).
    - by apply (H1 link). - by apply (H2 link). }
  unfold name_errors. apply Forall_app_2; [|apply Forall_app_2].
  - case_bool_decide; [done|]. apply Hone; intros link; differ.
  - destruct (NAME_RE_match name); [done|]. apply Hone; intros link; differ.
  - destruct (seen !! name); [|done]. apply Hone; intros link; differ.
Qed.

Lemma missing_name_not_about_link : ¬ about_link skill_md (msg_missing_name skill_md).
Proof. intros (link & [H|H]); revert H; differ. Qed.

Lemma link_errors_about_link link :
  Forall (about_link skill_md) (link_errors fs skill_dir skill_md link).
Proof.
  unfold link_errors. repeat case_match; repeat constructor.
  - exists link. by right.
  - exists link. by left.
Qed.

Lemma links_errors_about_link links :
  Forall (about_link skill_md) (concat (map (link_errors fs skill_dir skill_md) links)).
Proof.
  induction links as [|l links IH]; [done|].
  cbn [map concat]. apply Forall_app_2; [apply link_errors_about_link|done].
Qed.

Lemma count_escapes link links :
  relative_to (resolve fs (joinpath skill_dir link)) (resolve fs skill_dir)
    = None →
  count (msg_escapes skill_md link)
    (concat (map (link_errors fs skill_dir skill_md) links))
  = count link links.
Proof.
  intros Hesc. induction links as [|l links IH]; [done|].
  cbn [map concat]. rewrite count_app, IH. unfold link_errors at 1.
  destruct (decide (l = link)) as [->|Hne].
  - rewrite Hesc. by rewrite !count_cons_eq.
  - rewrite (count_cons_ne link l) by done.
    repeat case_match; try done.
    + rewrite count_cons_ne; [done|]. apply not_eq_sym, escapes_not_missing_target.
    + rewrite count_cons_ne; [done|]. by intros ?%escapes_inj.
Qed.

Lemma count_missing_target link links :
  relative_to (resolve fs (joinpath skill_dir link)) (resolve fs skill_dir)
    = None →
  count (msg_missing_target skill_md link)
    (concat (map (link_errors fs skill_dir skill_md) links))
  = 0%nat.
Proof.
  intros Hesc. apply count_none.
  induction links as [|l links IH]; [done|].
  cbn [map concat]. apply Forall_app_2; [|done]. unfold link_errors.
  destruct (relative_to (resolve fs (joinpath skill_dir l)) _) eqn:E.
  - destruct (exists_ _ _); [done|]. apply Forall_singleton.
    intros ->%missing_target_inj. congruence.
  - apply Forall_singleton, escapes_not_missing_target.
Qed.

Lemma mismatch_not_pattern name folder :
  msg_mismatch skill_md name folder ≠ msg_pattern skill_md name.
Proof. differ. Qed.

Lemma mismatch_not_duplicate name folder first :
  msg_mismatch skill_md name folder ≠ msg_duplicate skill_md name first.
Proof. differ. Qed.

Lemma pattern_not_duplicate name first :
  msg_pattern skill_md name ≠ msg_duplicate skill_md name first.
Proof. differ. Qed.

Lemma count_about_link msg links :
  ¬ about_link skill_md msg →
  count msg (concat (map (link_errors fs skill_dir skill_md) links)) = 0%nat.
Proof.
  intros H. apply count_none.
  eapply Forall_impl; [apply links_errors_about_link|].
  by intros e He ->.
Qed.

Lemma mismatch_not_about_link name folder :
  ¬ about_link skill_md (msg_mismatch skill_md name folder).
Proof. intros (link & [H|H]); revert H; differ. Qed.

Lemma duplicate_not_about_link name first :
  ¬ about_link skill_md (msg_duplicate skill_md name first).
Proof. intros (link & [H|H]); revert H; differ. Qed.

End messages.

(** What [check_skill] does with a folder whose frontmatter parses. *)
Lemma check_skill_parsed fs st skill_dir data :
  let skill_md := joinpath skill_dir (lit "SKILL.md") in
  let text := read_text fs skill_md in
  let name := get_name (Some data) in
  exists_ fs skill_md = true →
  parse_frontmatter text = Ok (Some data, None) →
  check_skill fs st skill_dir
  = Ok {| errors :=
            errors st
            ++ (if bool_decide (name = []) then [msg_missing_name skill_md]
                else name_errors skill_dir skill_md name (seen_names st))
            ++ concat (map (link_errors fs skill_dir skill_md)
                         (omap kept (LINK_RE_findall text)));
          seen_names :=
            if bool_decide (name = []) then seen_names st
            else register skill_md name (seen_names st) |}.
Proof.
  intros skill_md text name Hex Hp. rewrite check_skill_eq.
  unfold folder_errors, folder_seen. fold skill_md text.
  rewrite Hex, Hp. cbn [negb truthy orb]. by fold name.
Qed.

(** C1: a link that leaves the folder gets the message that says so, with
    the target as it was yielded, and the turn of the loop ends there.  Over
    a whole folder, that message occurs once for each time the target is
    yielded, and the message of a missing target never occurs for it. *)
Theorem escaping_link_reported
    (fs : filesystem) (st : state) (skill_dir : path) (link : str) :
  let skill_md := joinpath skill_dir (lit "SKILL.md") in
  relative_to (resolve fs (joinpath skill_dir link)) (resolve fs skill_dir)
    = None →
  check_link fs skill_dir skill_md st link
  = {| errors := errors st ++ [msg_escapes skill_md link];
       seen_names := seen_names st |}
  ∧ ∀ data links,
      exists_ fs skill_md = true →
      parse_frontmatter (read_text fs skill_md) = Ok (Some data, None) →
      iter_relative_links (read_text fs skill_md) = Ok links →
      ∃ st' new,
        check_skill fs st skill_dir = Ok st'
        ∧ errors st' = errors st ++ new
        ∧ count (msg_escapes skill_md link) new = count link links
        ∧ count (msg_missing_target skill_md link) new = 0%nat.
Proof.
  intros skill_md Hesc. split.
  { rewrite check_link_eq. unfold link_errors. by rewrite Hesc. }
  intros data links Hex Hp Hl.
  rewrite iter_relative_links_eq in Hl. injection Hl as <-.
  rewrite (check_skill_parsed fs st skill_dir data Hex Hp). fold skill_md.
  eexists _, _. split; [done|]. split; [done|].
  rewrite !count_app, count_escapes, count_missing_target by done.
  assert (Forall (λ e, ¬ about_link skill_md e)
            (if bool_decide (get_name (Some data) = [])
             then [msg_missing_name skill_md]
             else name_errors skill_dir skill_md (get_name (Some data))
                    (seen_names st))) as Hname.
  { case_bool_decide.
    - apply Forall_singleton, missing_name_not_about_link.
    - apply name_errors_not_about_link. }
  rewrite (count_none (msg_escapes skill_md link)),
    (count_none (msg_missing_target skill_md link)); [done| |].
  - eapply Forall_impl; [exact Hname|]. intros e He ->. apply He.
    exists link. by right.
  - eapply Forall_impl; [exact Hname|]. intros e He ->. apply He.
    exists link. by left.
Qed.

Lemma escaping_link_reported_witness :
  ∃ st' new,
    check_skill Examples.linked Examples.start (Examples.skill "my-skill")
    = Ok st'
    ∧ errors st' = new
    ∧ count (lit "/repo/skills/my-skill/SKILL.md: link escapes skill dir: ../../etc/passwd")
        new = 1%nat
    ∧ count (lit "/repo/skills/my-skill/SKILL.md: missing link target: ../../etc/passwd")
        new = 0%nat.
Proof.
  destruct (escaping_link_reported Examples.linked Examples.start
              (Examples.skill "my-skill") (lit "../../etc/passwd")
              ltac:(reflexivity)) as [_ H].
  destruct (H (<[lit "name" := lit "other-skill"]> ∅)
              [lit "../../etc/passwd"; lit "res/x.txt"; lit "res/y.txt"]
              ltac:(reflexivity) ltac:(reflexivity) ltac:(reflexivity))
    as (st' & new & Hst & Herr & Hone & Hnone).
  exists st', new. split; [exact Hst|]. split; [exact Herr|].
  split; [exact Hone|exact Hnone].
Defined.

(** C6: a name that is not the folder's gets the message that says so,
    once, and the checks go on: the name is still matched against [NAME_RE]
    and still looked up in (or entered into) the registry, and the links are
    still checked. *)
Theorem name_mismatch_not_terminal
    (fs : filesystem) (st : state) (skill_dir : path) (data : dict) :
  let skill_md := joinpath skill_dir (lit "SKILL.md") in
  let text := read_text fs skill_md in
  let name := get_name (Some data) in
  let mismatch := msg_mismatch skill_md name (path_name skill_dir) in
  exists_ fs skill_md = true →
  parse_frontmatter text = Ok (Some data, None) →
  name ≠ [] →
  name ≠ path_name skill_dir →
  ∃ st1 links st',
    check_name skill_dir skill_md name st = Ok st1
    ∧ iter_relative_links text = Ok links
    ∧ st' = foldl (check_link fs skill_dir skill_md) st1 links
    ∧ check_skill fs st skill_dir = Ok st'
    ∧ errors st1
      = errors st ++ [mismatch]
        ++ (if NAME_RE_match name then [] else [msg_pattern skill_md name])
        ++ match seen_names st !! name with
           | Some first => [msg_duplicate skill_md name first]
           | None => []
           end
    ∧ seen_names st1
      = match seen_names st !! name with
        | Some _ => seen_names st
        | None => <[name := path_str skill_md]> (seen_names st)
        end
    ∧ ∃ new, errors st' = errors st ++ new ∧ count mismatch new = 1%nat.
Proof.
  intros skill_md text name mismatch Hex Hp Hname Hne.
  eexists _, _, _. split; [apply check_name_eq|].
  split; [apply iter_relative_links_eq|]. split; [done|].
  rewrite check_links_eq. cbn [errors seen_names].
  unfold name_errors, register.
  rewrite (bool_decide_eq_false_2 (name = path_name skill_dir)) by done.
  split.
  { rewrite (check_skill_parsed fs st skill_dir data Hex Hp).
    fold skill_md text name.
    rewrite (bool_decide_eq_false_2 (name = [])) by done.
    unfold name_errors, register.
    rewrite (bool_decide_eq_false_2 (name = path_name skill_dir)) by done.
    by rewrite <-!app_assoc. }
  split; [done|]. split; [done|].
  eexists. split; [by rewrite <-!app_assoc|].
  fold mismatch. rewrite !count_app, count_about_link
    by apply mismatch_not_about_link.
  rewrite count_cons_eq, count_nil.
  destruct (NAME_RE_match name), (seen_names st !! name);
    rewrite ?count_cons_ne, ?count_nil; try done;
    apply not_eq_sym;
    first [apply mismatch_not_pattern | apply mismatch_not_duplicate].
Qed.

Lemma name_mismatch_not_terminal_witness :
  ∃ st',
    check_skill Examples.linked Examples.start (Examples.skill "my-skill")
    = Ok st'
    ∧ seen_names st'
      = <[lit "other-skill" := lit "/repo/skills/my-skill/SKILL.md"]> ∅
    ∧ ∃ new,
        errors st' = new
        ∧ count (lit "/repo/skills/my-skill/SKILL.md: name 'other-skill' does not match folder 'my-skill'")
            new = 1%nat.
Proof.
  destruct (name_mismatch_not_terminal Examples.linked Examples.start
              (Examples.skill "my-skill")
              (<[lit "name" := lit "other-skill"]> ∅)
              ltac:(reflexivity) ltac:(reflexivity)
              ltac:(discriminate) ltac:(discriminate))
    as (st1 & links & st' & Hname & Hlinks & Hst' & Hskill & _ & Hseen & Hcount).
  exists st'. split; [exact Hskill|]. split; [|exact Hcount].
  rewrite Hst', check_links_eq. exact Hseen.
Defined.

(** ** The registry of names *)

Section registry.

Context (fs : filesystem).

Lemma folder_seen_eq seen skill_dir :
  folder_seen fs seen skill_dir
  = match declared_name fs skill_dir with
    | Some name => register (joinpath skill_dir (lit "SKILL.md")) name seen
    | None => seen
    end.
Proof.
  unfold folder_seen, declared_name.
  destruct (exists_ fs _); [|done]. cbn [negb].
  destruct (parse_frontmatter_shape
              (read_text fs (joinpath skill_dir (lit "SKILL.md"))))
    as (meta & err & -> & [[[d ->] ->]|[-> (r & -> & Hr)]]).
  - cbn [truthy orb]. by case_bool_decide.
  - destruct r; [done|]. done.
Qed.

Lemma register_lookup skill_md name seen n :
  register skill_md name seen !! n
  = match seen !! n with
    | Some p => Some p
    | None => if bool_decide (name = n) then Some (path_str skill_md) else None
    end.
Proof.
  unfold register. destruct (seen !! name) as [p|] eqn:E.
  - destruct (seen !! n) eqn:E'; [done|].
    case_bool_decide; [congruence|done].
  - rewrite lookup_insert. case_decide as Hn.
    + subst n. rewrite E. by rewrite bool_decide_eq_true_2.
    + rewrite bool_decide_eq_false_2 by done. by destruct (seen !! n).
Qed.

(** The registry holds, for each name, the document of the first folder
    that declared it. *)
Lemma seen_after dirs : ∀ st name,
  seen_names (after fs st dirs) !! name
  = match seen_names st !! name with
    | Some p => Some p
    | None => (λ d, path_str (joinpath d (lit "SKILL.md")))
                <$> first_declaring fs name dirs
    end.
Proof.
  induction dirs as [|d dirs IH]; intros st name.
  - simpl. by destruct (seen_names st !! name).
  - cbn [after]. rewrite IH. cbn [seen_names]. rewrite folder_seen_eq.
    unfold first_declaring. cbn [List.find].
    destruct (declared_name fs d) as [n|] eqn:Hd.
    + rewrite register_lookup. destruct (seen_names st !! name); [done|].
      case_bool_decide as Hn.
      * subst n. by rewrite bool_decide_eq_true_2.
      * rewrite bool_decide_eq_false_2 by congruence. done.
    + rewrite bool_decide_eq_false_2 by done. done.
Qed.

Lemma first_declaring_exists name dirs d :
  d ∈ dirs → declared_name fs d = Some name →
  ∃ d0, first_declaring fs name dirs = Some d0.
Proof.
  intros Hin Hd. unfold first_declaring.
  destruct (List.find _ dirs) eqn:E; [by eexists|].
  apply list_elem_of_In in Hin.
  pose proof (find_none _ _ E _ Hin) as H. cbn in H.
  by rewrite bool_decide_eq_true_2 in H.
Qed.


Lemma first_declaring_first name pre0 d1 pre1 :
  Forall (λ d, declared_name fs d ≠ Some name) pre0 →
  declared_name fs d1 = Some name →
  first_declaring fs name (pre0 ++ d1 :: pre1) = Some d1.
Proof.
  unfold first_declaring. induction 1 as [|d pre0 Hd _ IH]; intros H1.
  - cbn. by rewrite bool_decide_eq_true_2.
  - cbn. rewrite bool_decide_eq_false_2 by done. by apply IH.
Qed.

Lemma folder_errors_declared seen skill_dir name :
  declared_name fs skill_dir = Some name →
  folder_errors fs seen skill_dir
  = name_errors skill_dir (joinpath skill_dir (lit "SKILL.md")) name seen
    ++ concat (map (link_errors fs skill_dir
                      (joinpath skill_dir (lit "SKILL.md")))
                 (omap kept (LINK_RE_findall
                    (read_text fs (joinpath skill_dir (lit "SKILL.md")))))).
Proof.
  unfold declared_name, folder_errors.
  destruct (exists_ fs _); [|done]. cbn [negb].
  destruct (parse_frontmatter _) as [[[d|] [r|]]|]; try done.
  cbn [truthy]. case_bool_decide; [done|]. by intros [= <-].
Qed.

End registry.

Lemma errors_after fs dirs : ∀ st,
  ∃ rest, errors (after fs st dirs) = errors st ++ rest.
Proof.
  induction dirs as [|d dirs IH]; intros st; cbn [after].
  - exists []. by rewrite app_nil_r.
  - destruct (IH {| errors := errors st ++ folder_errors fs (seen_names st) d;
                    seen_names := folder_seen fs (seen_names st) d |})
      as [rest ->].
    cbn [errors]. eexists. by rewrite <-app_assoc.
Qed.

(** C5, as the code has it: a folder that declares a name which a folder
    before it in the sorted order declares too records exactly one
    duplicate-name error; the document that error names is that of the
    first folder, in that order, to declare the name, which is what the
    registry holds, and the registry is left as it was.  When no folder
    before [d1] declares the name, the document named is that of [d1]. *)
Theorem duplicate_name_reported
    (fs : filesystem) (repo_root : path) (pre post : list path)
    (d1 d2 : path) (name : str) :
  let skills_dir := joinpath repo_root (lit "skills") in
  let doc (d : path) := path_str (joinpath d (lit "SKILL.md")) in
  let duplicate := msg_duplicate (joinpath d2 (lit "SKILL.md")) name in
  is_dir fs skills_dir = true →
  skill_dirs fs skills_dir = pre ++ d2 :: post →
  d1 ∈ pre →
  declared_name fs d1 = Some name →
  declared_name fs d2 = Some name →
  ∃ d0 st st' new final rest,
    first_declaring fs name pre = Some d0
    ∧ check_skills fs {| errors := []; seen_names := ∅ |} pre = Ok st
    ∧ check_skill fs st d2 = Ok st'
    ∧ errors st' = errors st ++ new
    ∧ count (duplicate (doc d0)) new = 1%nat
    ∧ (∀ other, other ≠ doc d0 → count (duplicate other) new = 0%nat)
    ∧ seen_names st !! name = Some (doc d0)
    ∧ seen_names st' = seen_names st
    ∧ collect fs repo_root = Ok final
    ∧ errors final = errors st ++ new ++ rest
    ∧ (∀ pre0 pre1,
         pre = pre0 ++ d1 :: pre1 →
         Forall (λ d, declared_name fs d ≠ Some name) pre0 →
         d0 = d1)
    ∧ path_ltb d2 d1 = false.
Proof.
  intros skills_dir doc duplicate Hdir Hdirs Hin Hd1 Hd2.
  destruct (first_declaring_exists fs name pre d1 Hin Hd1) as [d0 Hd0].
  set (start := {| errors := []; seen_names := ∅ |}).
  set (st := after fs start pre).
  assert (seen_names st !! name = Some (doc d0)) as Hseen.
  { unfold st. rewrite seen_after. cbn [seen_names start].
    rewrite lookup_empty, Hd0. done. }
  set (new := folder_errors fs (seen_names st) d2).
  destruct (errors_after fs post
              {| errors := errors st ++ new;
                 seen_names := folder_seen fs (seen_names st) d2 |})
    as [rest Hrest].
  exists d0, st, {| errors := errors st ++ new;
                    seen_names := folder_seen fs (seen_names st) d2 |},
    new, (after fs start (pre ++ d2 :: post)), rest.
  split; [done|]. split; [apply check_skills_eq|].
  split; [apply check_skill_eq|]. split; [done|].
  assert (new = (if bool_decide (name = path_name d2) then []
                 else [msg_mismatch (joinpath d2 (lit "SKILL.md")) name
                         (path_name d2)])
                ++ (if NAME_RE_match name then []
                    else [msg_pattern (joinpath d2 (lit "SKILL.md")) name])
                ++ [duplicate (doc d0)]
                ++ concat (map (link_errors fs d2 (joinpath d2 (lit "SKILL.md")))
                     (omap kept (LINK_RE_findall
                        (read_text fs (joinpath d2 (lit "SKILL.md"))))))) as Hnew.
  { unfold new. rewrite (folder_errors_declared fs _ d2 name Hd2).
    unfold name_errors. rewrite Hseen. by rewrite <-!app_assoc. }
  assert (∀ p, count (duplicate p) new
               = count (duplicate p) [duplicate (doc d0)]) as Hcount.
  { intros p. rewrite Hnew, !count_app.
    rewrite count_about_link by apply duplicate_not_about_link.
    assert (count (duplicate p)
              (if bool_decide (name = path_name d2) then []
               else [msg_mismatch (joinpath d2 (lit "SKILL.md")) name
                       (path_name d2)]) = 0%nat) as ->.
    { case_bool_decide; [done|].
      apply count_cons_ne, mismatch_not_duplicate. }
    assert (count (duplicate p)
              (if NAME_RE_match name then []
               else [msg_pattern (joinpath d2 (lit "SKILL.md")) name])
            = 0%nat) as ->.
    { destruct (NAME_RE_match name); [done|].
      apply count_cons_ne, pattern_not_duplicate. }
    lia. }
  split; [by rewrite Hcount, count_cons_eq|].
  split.
  { intros other Hother. rewrite Hcount, count_cons_ne; [done|].
    intros ?%duplicate_inj. congruence. }
  split; [done|]. split.
  { cbn [seen_names]. rewrite folder_seen_eq, Hd2. unfold register.
    by rewrite Hseen. }
  split.
  { unfold collect. fold skills_dir. rewrite Hdir, Hdirs. cbn [negb].
    apply check_skills_eq. }
  split.
  { rewrite after_app. cbn [after]. fold st new. rewrite Hrest.
    cbn [errors]. by rewrite <-app_assoc. }
  split.
  { intros pre0 pre1 -> Hnone.
    rewrite (first_declaring_first fs name pre0 d1 pre1 Hnone Hd1) in Hd0.
    congruence. }
  eapply earlier_not_after; [|exact Hdirs|exact Hin].
  apply skill_dirs_sorted.
Qed.

Lemma duplicate_name_reported_witness :
  ∃ st st' new,
    check_skills Examples.shared Examples.start
      [Examples.skill "alpha"; Examples.skill "beta"] = Ok st
    ∧ check_skill Examples.shared st (Examples.skill "gamma") = Ok st'
    ∧ errors st' = errors st ++ new
    ∧ count (lit "/repo/skills/gamma/SKILL.md: duplicate name 'shared-name' also in /repo/skills/alpha/SKILL.md")
        new = 1%nat
    ∧ seen_names st' = seen_names st.
Proof.
  destruct (duplicate_name_reported Examples.shared Examples.REPO
              [Examples.skill "alpha"; Examples.skill "beta"] []
              (Examples.skill "beta") (Examples.skill "gamma")
              (lit "shared-name")
              ltac:(reflexivity) ltac:(reflexivity)
              ltac:(apply list_elem_of_further, list_elem_of_here)
              ltac:(reflexivity) ltac:(reflexivity))
    as (d0 & st & st' & new & final & rest
        & Hd0 & Hst & Hst' & Herr & Hone & _ & _ & Hseen & _).
  injection Hd0 as <-.
  exists st, st', new.
  split; [exact Hst|]. split; [exact Hst'|]. split; [exact Herr|].
  split; [exact Hone|exact Hseen].
Defined.

(** With three folders that declare one name, the third reports the first,
    not the second: the rule does not hold of the second and the third. *)
Lemma third_folder_reports_first :
  ¬ later_reports_earlier Examples.shared
      (skill_dirs Examples.shared Examples.SKILLS).
Proof.
  intros H.
  destruct (H [Examples.skill "alpha"] (Examples.skill "beta") []
              (Examples.skill "gamma") [] (lit "shared-name")
              eq_refl eq_refl eq_refl)
    as (st & st' & new & Hst & Hst' & Herr & Hcount).
  rewrite check_skills_eq in Hst. injection Hst as <-.
  rewrite check_skill_eq in Hst'. injection Hst' as <-.
  cbn [errors] in Herr. apply app_inv_head in Herr. subst new.
  vm_compute in Hcount. discriminate Hcount.
Qed.

(** ** More on the frontmatter parser *)

Section frontmatter.

Lemma index_from_app x front rest :
  x ∉ front → index_from x (front ++ x :: rest) 0 = Some (length front).
Proof.
  induction front as [|l front IH]; intros Hx; simpl.
  - unfold str_eqb. by rewrite bool_decide_eq_true_2.
  - apply not_elem_of_cons in Hx as [Hne Hx].
    unfold str_eqb. rewrite bool_decide_eq_false_2 by done.
    by rewrite IH.
Qed.

Lemma parse_frontmatter_front text first front rest :
  splitlines text = first :: front ++ DELIM :: rest →
  strip first = DELIM →
  DELIM ∉ front →
  parse_frontmatter text
  = (data ← parse_lines ∅ front; Ok (Some data, None)).
Proof.
  intros Hl Hfirst Hfront. unfold parse_frontmatter. rewrite Hl.
  unfold str_eqb. rewrite bool_decide_eq_true_2 by done. cbn [negb].
  cbn [index_from]. rewrite index_from_app by done. cbn [fmap option_fmap option_map].
  unfold slice. cbn [take drop]. by rewrite take_app_length.
Qed.

Lemma entry_split key value :
  contains COLON key = false →
  take_while (λ c, negb (c =? COLON)) (key ++ COLON :: value) = key.
Proof.
  induction key as [|c key IH]; [done|]. cbn [app take_while contains existsb].
  rewrite (N.eqb_sym COLON c). destruct (c =? COLON); cbn [negb orb]; [done|].
  intros H. by rewrite IH.
Qed.

Lemma parse_line_eq data line :
  parse_line data line
  = Ok (match entry line with
        | Some (k, v) => <[k := v]> data
        | None => data
        end).
Proof.
  unfold parse_line, entry.
  destruct (_ || _); [done|].
  destruct (contains COLON line) eqn:E; cbn [negb]; [|done].
  destruct (contains_split1 _ _ E) as (a & b & Hs & -> & Ha).
  rewrite Hs, (entry_split a b Ha).
  assert (drop (S (length a)) (a ++ COLON :: b) = b) as ->; [|done].
  clear. by induction a.
Qed.

Lemma find_app {A} (f : A → bool) l1 l2 :
  List.find f (l1 ++ l2)
  = match List.find f l1 with
    | Some x => Some x
    | None => List.find f l2
    end.
Proof. induction l1 as [|x l1 IH]; simpl; [done|]. by destruct (f x). Qed.

Lemma parse_lines_lookup front : ∀ data,
  ∃ d, parse_lines data front = Ok d
       ∧ ∀ k, d !! k
              = match List.find (λ e, bool_decide (e.1 = k))
                        (rev (omap entry front)) with
                | Some e => Some e.2
                | None => data !! k
                end.
Proof.
  induction front as [|line front IH]; intros data.
  - exists data. by split.
  - cbn [parse_lines]. rewrite parse_line_eq. cbn.
    destruct (IH (match entry line with
                  | Some (k, v) => <[k := v]> data
                  | None => data
                  end)) as (d & -> & Hd).
    exists d. split; [done|]. intros k. rewrite Hd.
    destruct (entry line) as [[k' v']|]; [|done].
    cbn [rev]. rewrite find_app.
    destruct (List.find _ (rev (omap entry front))); [done|].
    cbn. rewrite lookup_insert. case_decide; subst.
    + by rewrite bool_decide_eq_true_2.
    + by rewrite bool_decide_eq_false_2.
Qed.

Lemma splitlines_no_break_upto n : ∀ text,
  (length text ≤ n)%nat →
  Forall (Forall (λ c, is_linebreak c = false)) (splitlines text).
Proof.
  induction n as [|n IH]; intros [|c rest] Hn; simpl in *; try done; [lia|].
  destruct (is_linebreak c) eqn:Hc.
  - constructor; [done|]. destruct rest as [|d rest']; [done|].
    destruct (_ && _); apply IH; simpl in *; lia.
  - pose proof (IH rest ltac:(lia)) as Hrest.
    destruct (splitlines rest) as [|l ls].
    + by repeat constructor.
    + apply Forall_cons in Hrest as [Hl Hls]. by repeat constructor.
Qed.

Lemma splitlines_no_break text :
  Forall (Forall (λ c, is_linebreak c = false)) (splitlines text).
Proof. by apply (splitlines_no_break_upto (length text)). Qed.

Lemma drop_while_keeps (P : N → Prop) p s :
  Forall P s → Forall P (drop_while p s).
Proof.
  induction 1 as [|c r ? ? IH]; simpl; [done|].
  destruct (p c); [done|]. by constructor.
Qed.

Lemma strip_by_keeps (P : N → Prop) p s :
  Forall P s → Forall P (rev (drop_while p (rev (drop_while p s)))).
Proof.
  intros H. apply Forall_rev, drop_while_keeps, Forall_rev.
  by apply drop_while_keeps.
Qed.

Lemma strip_by_trimmed p s :
  trimmed p (rev (drop_while p (rev (drop_while p s)))).
Proof.
  split.
  - destruct (drop_while p s) as [|c0 r0] eqn:E; [done|].
    apply drop_while_head in E.
    change (c0 :: r0) with ([c0] ++ r0). rewrite rev_app_distr. simpl.
    rewrite drop_while_snoc, rev_app_distr by done. simpl.
    by intros c r [= <- _].
  - intros c r. rewrite rev_involutive. apply drop_while_head.
Qed.

Lemma trimmed_ext p q s : (∀ c, p c = q c) → trimmed p s → trimmed q s.
Proof.
  intros Hpq [H1 H2].
  split; intros c r E; rewrite <-Hpq; [by eapply H1|by eapply H2].
Qed.

(** What holds of the key and the value of an entry. *)
Lemma entry_shape line k v :
  Forall (λ c, is_linebreak c = false) line →
  entry line = Some (k, v) →
  trimmed isspace k ∧ (COLON ∉ k) ∧ trimmed is_quote v
  ∧ Forall (λ c, is_linebreak c = false) k
  ∧ Forall (λ c, is_linebreak c = false) v.
Proof.
  intros Hline. unfold entry.
  destruct (_ || _); [done|]. destruct (negb _); [done|].
  intros [= <- <-]. split; [apply strip_by_trimmed|]. split.
  { intros Hin.
    assert (Forall (λ c, negb (c =? COLON) = true)
              (strip (take_while (λ c, negb (c =? COLON)) line))) as H.
    { apply strip_by_keeps, take_while_Forall. }
    apply Forall_forall with (x := COLON) in H; done. }
  split.
  { eapply trimmed_ext; [|apply strip_by_trimmed].
    intros c. unfold in_chars, is_quote. simpl. by rewrite orb_false_r. }
  split.
  - by apply strip_by_keeps, take_while_keeps.
  - by apply strip_by_keeps, strip_by_keeps, Forall_drop.
Qed.

Lemma parse_lines_shape front : ∀ data d (Q : str → str → Prop),
  (∀ line k v, line ∈ front → entry line = Some (k, v) → Q k v) →
  map_Forall Q data →
  parse_lines data front = Ok d →
  map_Forall Q d.
Proof.
  induction front as [|line front IH]; intros data d Q HQ Hdata.
  - by intros [= <-].
  - cbn [parse_lines]. rewrite parse_line_eq. cbn. apply IH.
    + intros l k v Hl. apply HQ. by right.
    + destruct (entry line) as [[k v]|] eqn:E; [|done].
      apply map_Forall_insert_2; [|done]. eapply HQ; [by left|done].
Qed.

Lemma parse_frontmatter_Some text data :
  parse_frontmatter text = Ok (Some data, None) →
  ∃ e, parse_lines ∅ (slice (splitlines text) 1 e) = Ok data.
Proof.
  unfold parse_frontmatter.
  destruct (splitlines text) as [|first rest]; [done|].
  destruct (negb _); [done|].
  destruct (index_from _ _ _) as [e|]; [|done].
  destruct (parse_lines _ _) as [d|] eqn:E; [|done].
  intros [= <-]. by exists e.
Qed.

Lemma frontmatter_shape text data k v :
  parse_frontmatter text = Ok (Some data, None) →
  data !! k = Some v →
  trimmed isspace k ∧ (COLON ∉ k) ∧ trimmed is_quote v
  ∧ Forall (λ c, is_linebreak c = false) k
  ∧ Forall (λ c, is_linebreak c = false) v.
Proof.
  intros [e He]%parse_frontmatter_Some Hk.
  eapply (parse_lines_shape _ ∅ data
            (λ k v, trimmed isspace k ∧ (COLON ∉ k) ∧ trimmed is_quote v
                    ∧ Forall (λ c, is_linebreak c = false) k
                    ∧ Forall (λ c, is_linebreak c = false) v));
    [|apply map_Forall_empty|exact He|exact Hk].
  intros line k' v' Hin. apply entry_shape.
  pose proof (splitlines_no_break text) as H.
  apply (Forall_take _ e), (Forall_drop _ 1) in H.
  by apply Forall_forall with (x := line) in H.
Qed.

End frontmatter.

(** X1: the mapping is read off the lines between the opening delimiter
    and the first later line that is [---]; what comes after that line,
    further delimiters included, does not matter. *)
Theorem frontmatter_ignores_body (text first : str) (front rest : list str) :
  splitlines text = first :: front ++ DELIM :: rest →
  strip first = DELIM →
  DELIM ∉ front →
  ∃ data,
    parse_lines ∅ front = Ok data
    ∧ parse_frontmatter text = Ok (Some data, None).
Proof.
  intros Hl Hfirst Hfront.
  destruct (parse_lines_total front ∅) as [data Hdata].
  exists data. split; [done|].
  rewrite (parse_frontmatter_front text first front rest) by done.
  by rewrite Hdata.
Qed.

Lemma frontmatter_ignores_body_witness :
  ∃ data,
    parse_lines ∅ [lit "name: a"] = Ok data
    ∧ parse_frontmatter
        (lit " ---" ++ [LF] ++ lit "name: a" ++ [LF] ++ lit "---" ++ [LF]
         ++ lit "name: b" ++ [LF] ++ lit "---" ++ [LF])
      = Ok (Some data, None).
Proof.
  apply (frontmatter_ignores_body _ (lit " ---") [lit "name: a"]
           [lit "name: b"; lit "---"]).
  - reflexivity.
  - reflexivity.
  - apply (bool_decide_unpack _). vm_compute. exact I.
Defined.

(** X2: the mapping holds, for each key, the value of the last line that
    gives an entry for it; lines that are blank, comments or without a [:]
    give none and change nothing. *)
Theorem last_entry_wins (data : dict) (front : list str) :
  ∃ d,
    parse_lines data front = Ok d
    ∧ ∀ k, d !! k
           = match List.find (λ e, bool_decide (e.1 = k))
                     (rev (omap entry front)) with
             | Some e => Some e.2
             | None => data !! k
             end.
Proof. apply parse_lines_lookup. Qed.

(** X3: in a mapping that [parse_frontmatter] returns, a key has no white
    space at either end and no [:], a value has no quote character at either
    end, and neither holds a line break. *)
Theorem frontmatter_entries_trimmed (text : str) (data : dict) (k v : str) :
  parse_frontmatter text = Ok (Some data, None) →
  data !! k = Some v →
  trimmed isspace k ∧ (COLON ∉ k) ∧ trimmed is_quote v
  ∧ Forall (λ c, is_linebreak c = false) k
  ∧ Forall (λ c, is_linebreak c = false) v.
Proof. apply frontmatter_shape. Qed.

Lemma frontmatter_entries_trimmed_witness :
  trimmed isspace (lit "key") ∧ (COLON ∉ lit "key")
  ∧ trimmed is_quote (lit "quoted value")
  ∧ Forall (λ c, is_linebreak c = false) (lit "key")
  ∧ Forall (λ c, is_linebreak c = false) (lit "quoted value").
Proof.
  apply (frontmatter_entries_trimmed Examples.quoted
           {[lit "key" := lit "quoted value"]}); reflexivity.
Defined.

(** ** More on names *)

Section names.

Lemma drop_take_while p s : drop (length (take_while p s)) s = drop_while p s.
Proof.
  induction s as [|c s IH]; simpl; [done|]. by destruct (p c).
Qed.

Lemma take_while_app_stop p body rest :
  Forall (λ c, p c = true) body →
  (∀ c r, rest = c :: r → p c = false) →
  take_while p (body ++ rest) = body.
Proof.
  intros Hbody Hrest. induction Hbody as [|c body Hc _ IH]; simpl.
  - destruct rest as [|c r]; [done|]. simpl. by rewrite (Hrest c r).
  - by rewrite Hc, IH.
Qed.

Lemma NAME_RE_match_spec s :
  NAME_RE_match s = true
  ↔ ∃ body, (s = body ∨ s = body ++ [LF])
            ∧ body ≠ [] ∧ (length body ≤ 64)%nat
            ∧ Forall (λ c, name_char c = true) body.
Proof.
  unfold NAME_RE_match. rewrite drop_take_while. split.
  - intros [[Hne Hlen]%andb_true_iff Hrest]%andb_true_iff.
    exists (take_while name_char s).
    apply negb_true_iff, bool_decide_eq_false in Hne.
    apply Nat.leb_le in Hlen.
    split; [|split; [done|split; [done|apply take_while_Forall]]].
    pose proof (take_drop_while name_char s) as Hs.
    apply orb_true_iff in Hrest as [Hr|Hr]; apply bool_decide_eq_true in Hr;
      rewrite Hr in Hs.
    + left. by rewrite app_nil_r in Hs.
    + by right.
  - intros (body & Hs & Hne & Hlen & Hbody).
    assert (∃ rest, s = body ++ rest ∧ (rest = [] ∨ rest = [LF]))
      as (rest & -> & Hrest).
    { destruct Hs as [->| ->]; [exists []|exists [LF]]; split; auto.
      by rewrite app_nil_r. }
    assert (take_while name_char (body ++ rest) = body) as Ht.
    { apply take_while_app_stop; [done|].
      destruct Hrest as [->| ->]; [done|]. by intros c r [= <- _]. }
    rewrite <-drop_take_while, Ht, drop_app_length.
    rewrite bool_decide_eq_false_2 by done.
    apply Nat.leb_le in Hlen. rewrite Hlen. cbn [negb andb].
    destruct Hrest as [->| ->]; reflexivity.
Qed.

Lemma get_name_lookup data :
  get_name (Some data) = default [] (data !! lit "name").
Proof. unfold get_name. by case_bool_decide; subst. Qed.

Lemma get_name_no_break text data :
  parse_frontmatter text = Ok (Some data, None) →
  Forall (λ c, is_linebreak c = false) (get_name (Some data)).
Proof.
  intros Hp. rewrite get_name_lookup.
  destruct (data !! lit "name") as [v|] eqn:E; [|done].
  by apply (frontmatter_shape text data _ v Hp E).
Qed.

End names.

(** X4: [NAME_RE] matches a text exactly when the text is one to 64
    characters out of [a-z], [0-9] and [-], with or without one line feed
    after them: the [$] of the pattern lets a final line feed pass. *)
Theorem NAME_RE_accepts_exactly (s : str) :
  NAME_RE_match s = true
  ↔ ∃ body, (s = body ∨ s = body ++ [LF])
            ∧ body ≠ [] ∧ (length body ≤ 64)%nat
            ∧ Forall (λ c, name_char c = true) body.
Proof. apply NAME_RE_match_spec. Qed.

(** X5: a name read from a frontmatter holds no line break, so for the
    names [main] checks the pattern test is exact: it passes just the names
    of one to 64 characters out of [a-z], [0-9] and [-]. *)
Theorem declared_name_pattern_exact (text : str) (data : dict) :
  let name := get_name (Some data) in
  parse_frontmatter text = Ok (Some data, None) →
  Forall (λ c, is_linebreak c = false) name
  ∧ (NAME_RE_match name = true
     ↔ name ≠ [] ∧ (length name ≤ 64)%nat
       ∧ Forall (λ c, name_char c = true) name).
Proof.
  intros name Hp.
  pose proof (get_name_no_break text data Hp) as Hbreak. subst name.
  revert Hbreak. generalize (get_name (Some data)). intros name Hbreak.
  split; [done|]. rewrite NAME_RE_match_spec. split.
  - intros (body & Hs & H1 & H2 & H3). destruct Hs as [Hs|Hs].
    { rewrite Hs. by split_and!. }
    rewrite Hs in Hbreak. apply Forall_app in Hbreak as [_ Hlf].
    apply Forall_cons in Hlf as [Hc _]. discriminate Hc.
  - intros (? & ? & ?). exists name. auto.
Qed.

Lemma declared_name_pattern_exact_witness :
  Forall (λ c, is_linebreak c = false) (lit "other-skill")
  ∧ (NAME_RE_match (lit "other-skill") = true
     ↔ lit "other-skill" ≠ [] ∧ (length (lit "other-skill") ≤ 64)%nat
       ∧ Forall (λ c, name_char c = true) (lit "other-skill")).
Proof.
  exact (declared_name_pattern_exact
           (read_text Examples.linked (Examples.skill_md "my-skill"))
           (<[lit "name" := lit "other-skill"]> ∅) ltac:(reflexivity)).
Defined.

(** ** More on the link extractor *)

Section matches.

Lemma Forall_differs x (l : str) :
  Forall (λ c, negb (c =? x) = true) l ↔ x ∉ l.
Proof.
  rewrite Forall_forall. split.
  - intros H Hin. specialize (H x Hin). by rewrite N.eqb_refl in H.
  - intros H c Hc. apply negb_true_iff, N.eqb_neq. by intros ->.
Qed.

Lemma take_while_split p s :
  s = take_while p s ++ drop (length (take_while p s)) s.
Proof. by rewrite drop_take_while, take_drop_while. Qed.

Lemma LINK_RE_match_Some s target len :
  LINK_RE_match s = Some (target, len) →
  ∃ label tail,
    s = LBRACKET :: label ++ [RBRACKET; LPAREN] ++ target ++ RPAREN :: tail
    ∧ label ≠ [] ∧ (RBRACKET ∉ label)
    ∧ target ≠ [] ∧ (RPAREN ∉ target)
    ∧ len = (length label + length target + 4)%nat.
Proof.
  unfold LINK_RE_match. destruct s as [|c s1]; [done|].
  destruct (c =? LBRACKET) eqn:Hc; [|done]. apply N.eqb_eq in Hc as ->.
  pose proof (take_while_split (λ c, negb (c =? RBRACKET)) s1) as Hs1.
  pose proof (take_while_Forall (λ c, negb (c =? RBRACKET)) s1) as Hlabel.
  revert Hs1 Hlabel.
  generalize (take_while (λ c, negb (c =? RBRACKET)) s1). intros label.
  destruct label as [|l0 label]; [done|].
  destruct (drop _ s1) as [|r [|l s2]]; [done|done|].
  destruct (r =? RBRACKET) eqn:Hr; [|done].
  destruct (l =? LPAREN) eqn:Hl; [|done].
  apply N.eqb_eq in Hr as ->. apply N.eqb_eq in Hl as ->. cbn [andb].
  pose proof (take_while_split (λ c, negb (c =? RPAREN)) s2) as Hs2.
  pose proof (take_while_Forall (λ c, negb (c =? RPAREN)) s2) as Htarget.
  revert Hs2 Htarget.
  generalize (take_while (λ c, negb (c =? RPAREN)) s2). intros tgt.
  destruct tgt as [|t0 tgt]; [done|].
  destruct (drop _ s2) as [|p tail]; [done|].
  destruct (p =? RPAREN) eqn:Hp; [|done]. apply N.eqb_eq in Hp as ->.
  intros Hs2 Htarget Hs1 Hlabel [= <- <-].
  exists (l0 :: label), tail. rewrite Hs1, Hs2.
  split; [done|].
  split; [done|]. split; [by apply Forall_differs|].
  split; [done|]. split; [by apply Forall_differs|done].
Qed.

Lemma LINK_RE_match_link label target tail :
  label ≠ [] → RBRACKET ∉ label → target ≠ [] → RPAREN ∉ target →
  LINK_RE_match
    (LBRACKET :: label ++ [RBRACKET; LPAREN] ++ target ++ RPAREN :: tail)
  = Some (target, (length label + length target + 4)%nat).
Proof.
  intros Hl Hlb Ht Htp. unfold LINK_RE_match. cbv zeta.
  rewrite N.eqb_refl.
  rewrite (take_while_app_stop _ label) by
    (by apply Forall_differs || by intros c r [= <- _]).
  destruct label as [|l0 label]; [done|].
  rewrite drop_app_length. cbn [app]. cbv iota beta.
  rewrite !N.eqb_refl. cbn [andb].
  rewrite (take_while_app_stop _ target) by
    (by apply Forall_differs || by intros c r [= <- _]).
  destruct target as [|t0 target]; [done|].
  rewrite drop_app_length. by rewrite N.eqb_refl.
Qed.

Lemma findall_from_skip s tail :
  findall_from (length s) (s ++ tail) = findall_from 0 tail.
Proof. induction s as [|c s IH]; [done|]. simpl. apply IH. Qed.

Lemma findall_from_enclosed s : ∀ skip raw,
  raw ∈ findall_from skip s →
  ∃ before label tail,
    s = before ++ LBRACKET :: label ++ [RBRACKET; LPAREN] ++ raw
               ++ RPAREN :: tail
    ∧ label ≠ [] ∧ (RBRACKET ∉ label) ∧ raw ≠ [] ∧ (RPAREN ∉ raw).
Proof.
  induction s as [|c s IH]; intros skip raw; [by intros ?%elem_of_nil|].
  assert (∀ k, raw ∈ findall_from k s →
               ∃ before label tail,
                 c :: s = before ++ LBRACKET :: label ++ [RBRACKET; LPAREN]
                            ++ raw ++ RPAREN :: tail
                 ∧ label ≠ [] ∧ (RBRACKET ∉ label) ∧ raw ≠ [] ∧ (RPAREN ∉ raw))
    as Hrest.
  { intros k (before & label & tail & -> & H)%IH.
    by exists (c :: before), label, tail. }
  cbn [findall_from]. destruct skip as [|k]; [|apply Hrest].
  destruct (LINK_RE_match (c :: s)) as [[target len]|] eqn:E; [|apply Hrest].
  intros [->|Hin]%elem_of_cons; [|by eapply Hrest].
  apply LINK_RE_match_Some in E
    as (label & tail & -> & ? & ? & ? & ? & _).
  by exists [], label, tail.
Qed.

Lemma drop_while_app p a b :
  drop_while p (a ++ b)
  = match drop_while p a with
    | [] => drop_while p b
    | x => x ++ b
    end.
Proof.
  induction a as [|c a IH]; simpl; [by destruct (drop_while p b)|].
  by destruct (p c).
Qed.

Lemma drop_while_all p pad s :
  Forall (λ c, p c = true) pad → drop_while p (pad ++ s) = drop_while p s.
Proof. induction 1 as [|c pad Hc _ IH]; simpl; [done|]. by rewrite Hc. Qed.

Lemma rstrip_prefix s : ∃ ws, s = rstrip s ++ ws.
Proof.
  exists (rev (take_while isspace (rev s))). unfold rstrip.
  rewrite <-rev_app_distr, take_drop_while. by rewrite rev_involutive.
Qed.

Lemma strip_padded pad t rest :
  Forall (λ c, isspace c = true) pad →
  t ≠ [] →
  Forall (λ c, isspace c = false) t →
  strip (pad ++ t ++ rest) = t ++ rstrip rest.
Proof.
  intros Hpad Hne Ht. unfold strip, lstrip.
  rewrite drop_while_all by done.
  assert (∀ s, Forall (λ c, isspace c = false) s → drop_while isspace s = s)
    as Hkeep.
  { intros [|c s] H; [done|]. apply Forall_cons in H as [Hc _].
    simpl. by rewrite Hc. }
  rewrite drop_while_app, (Hkeep t Ht).
  destruct t as [|t0 t]; [done|]. cbn [app].
  change (t0 :: t ++ rest) with ((t0 :: t) ++ rest).
  unfold rstrip. rewrite rev_app_distr, drop_while_app.
  rewrite (Hkeep (rev (t0 :: t))) by by apply Forall_rev.
  destruct (drop_while isspace (rev rest)) as [|x xs] eqn:E.
  - rewrite rev_involutive. cbn [rev]. by rewrite app_nil_r.
  - by rewrite rev_app_distr, rev_involutive.
Qed.

Lemma cut_stops t rest :
  Forall (λ c, isspace c = false ∧ c ≠ HASH) t →
  (∀ c r, rest = c :: r → isspace c = true ∨ c = HASH) →
  cut (t ++ rest) = t.
Proof.
  intros Ht Hrest. unfold cut. induction Ht as [|c t [Hc Hh] _ IH].
  - destruct rest as [|c r]; [done|]. cbn [app take_while].
    destruct (Hrest c r eq_refl) as [Hs| ->].
    + by rewrite Hs.
    + by destruct (negb (isspace HASH)).
  - cbn [app take_while]. rewrite Hc. cbn [negb take_while].
    apply N.eqb_neq in Hh. rewrite Hh. cbn [negb]. by rewrite IH.
Qed.

Lemma startswith_app p : ∀ t c r,
  startswith p (t ++ c :: r) = true → startswith p t = true ∨ c ∈ p.
Proof.
  induction p as [|a p IH]; intros [|b t] c r; simpl; auto.
  - intros [->%N.eqb_eq _]%andb_true_iff. right. by left.
  - intros [Hab [H|H]%IH]%andb_true_iff.
    + left. by rewrite Hab.
    + right. by right.
Qed.

Lemma excluded_app t rest :
  t ≠ [] →
  Forall (λ c, isspace c = false ∧ c ≠ HASH) t →
  startswith_any EXCLUDED t = false →
  (∀ c r, rest = c :: r → isspace c = true ∨ c = HASH) →
  startswith_any EXCLUDED (t ++ rest) = false.
Proof.
  intros Hne Ht Hex Hrest. destruct rest as [|c r]; [by rewrite app_nil_r|].
  apply not_true_iff_false. intros (p & Hp & Hs)%existsb_exists.
  apply not_true_iff_false in Hex. apply Hex, existsb_exists.
  exists p. split; [done|].
  pose proof Hs as Hs0.
  apply startswith_app in Hs as [Hs|Hc]; [done|]. exfalso.
  destruct (Hrest c r eq_refl) as [Hspace| ->].
  - assert (Forall (Forall (λ c, isspace c = false)) EXCLUDED) as Hall
      by (repeat constructor).
    apply Forall_forall with (x := p) in Hall; [|by apply list_elem_of_In].
    apply Forall_forall with (x := c) in Hall; [congruence|done].
  - destruct t as [|t0 t]; [done|]. apply Forall_cons in Ht as [[_ Ht0] _].
    assert (forallb (λ q, negb (bool_decide (HASH ∈ q))
                          || bool_decide (q = [HASH])) EXCLUDED = true)
      as Hall by reflexivity.
    rewrite forallb_forall in Hall. specialize (Hall p Hp).
    rewrite (bool_decide_eq_true_2 _ Hc) in Hall. cbn [negb orb] in Hall.
    apply bool_decide_eq_true in Hall. rewrite Hall in Hs0.
    cbn [app startswith] in Hs0.
    apply andb_true_iff in Hs0 as [Heq _]. apply N.eqb_eq in Heq. congruence.
Qed.

End matches.

(** X6: every raw target [LINK_RE.findall] returns stands in the text
    between [](] and [)], after a [[] and a label that is not empty and
    holds no []]; the target itself is not empty and holds no [)]. *)
Theorem raw_matches_enclosed (text raw : str) :
  raw ∈ LINK_RE_findall text →
  ∃ before label tail,
    text = before ++ LBRACKET :: label ++ [RBRACKET; LPAREN] ++ raw
                  ++ RPAREN :: tail
    ∧ label ≠ [] ∧ (RBRACKET ∉ label) ∧ raw ≠ [] ∧ (RPAREN ∉ raw).
Proof. apply findall_from_enclosed. Qed.

Lemma raw_matches_enclosed_witness :
  ∃ before label tail,
    lit "see [the docs](docs/a.md) now"
    = before ++ LBRACKET :: label ++ [RBRACKET; LPAREN] ++ lit "docs/a.md"
             ++ RPAREN :: tail
    ∧ label ≠ [] ∧ (RBRACKET ∉ label) ∧ lit "docs/a.md" ≠ []
    ∧ (RPAREN ∉ lit "docs/a.md").
Proof.
  apply (raw_matches_enclosed (lit "see [the docs](docs/a.md) now")).
  apply (bool_decide_unpack _). vm_compute. exact I.
Defined.

(** X7: a link at the head of a text, with a label that is not empty and
    holds no []] and a target that is not empty and holds no [)], gives its
    target, and the search goes on right after its [)]. *)
Theorem link_at_head (label target tail : str) :
  label ≠ [] → RBRACKET ∉ label → target ≠ [] → RPAREN ∉ target →
  LINK_RE_findall
    (LBRACKET :: label ++ [RBRACKET; LPAREN] ++ target ++ RPAREN :: tail)
  = target :: LINK_RE_findall tail.
Proof.
  intros Hl Hlb Ht Htp. unfold LINK_RE_findall.
  change (findall_from 0 (LBRACKET :: ?s))
    with (match LINK_RE_match (LBRACKET :: s) with
          | Some (target, len) => target :: findall_from (len - 1) s
          | None => findall_from 0 s
          end).
  rewrite LINK_RE_match_link by done. f_equal.
  replace (label ++ [RBRACKET; LPAREN] ++ target ++ RPAREN :: tail)
    with ((label ++ [RBRACKET; LPAREN] ++ target ++ [RPAREN]) ++ tail)
    by (by rewrite <-!app_assoc).
  replace (length label + length target + 4 - 1)%nat
    with (length (label ++ [RBRACKET; LPAREN] ++ target ++ [RPAREN])).
  - apply findall_from_skip.
  - rewrite !length_app. simpl. lia.
Qed.

Lemma link_at_head_witness :
  LINK_RE_findall (lit "[a](x)[b](y)") = lit "x" :: LINK_RE_findall (lit "[b](y)").
Proof.
  apply (link_at_head (lit "a") (lit "x") (lit "[b](y)"));
    first [discriminate | apply (bool_decide_unpack _); vm_compute; exact I].
Defined.

(** X8: what is yielded for a raw target is its first run of characters up
    to white space or [#]: white space around it, a title after it and a
    fragment after it are dropped, and a target that is already such a run
    is yielded as it is. *)
Theorem relative_link_normal_form (pad target rest : str) :
  Forall (λ c, isspace c = true) pad →
  clean_target target →
  (∀ c r, rest = c :: r → isspace c = true ∨ c = HASH) →
  relative_link (pad ++ target ++ rest) = Ok (Some target).
Proof.
  intros Hpad (Hne & Ht & Hex) Hrest.
  assert (Forall (λ c, isspace c = false) target) as Hns.
  { eapply Forall_impl; [exact Ht|]. by intros c [? _]. }
  assert (∀ c r, rstrip rest = c :: r → isspace c = true ∨ c = HASH) as Hrs.
  { intros c r E. destruct (rstrip_prefix rest) as [ws Hws].
    rewrite E in Hws. by apply (Hrest c (r ++ ws)). }
  rewrite relative_link_eq. unfold kept, discarded_early.
  rewrite strip_padded by done.
  rewrite bool_decide_eq_false_2 by (by destruct target).
  rewrite excluded_app by done. cbn [orb].
  by rewrite cut_stops.
Qed.

Lemma relative_link_normal_form_witness :
  relative_link (lit "  res/x.txt#top 'X' ") = Ok (Some (lit "res/x.txt")).
Proof.
  apply (relative_link_normal_form (lit "  ") (lit "res/x.txt")
           (lit "#top 'X' ")).
  - repeat constructor.
  - split; [discriminate|]. split; [|reflexivity].
    repeat (constructor; [split; [reflexivity|discriminate]|]). constructor.
  - intros c r [= <- _]. right. reflexivity.
Defined.

(** ** More on links and folders *)

Section containment.

Context (fs : filesystem) (skill_dir skill_md : path).

Lemma relative_to_Some p q r : relative_to p q = Some r ↔ p = q ++ r.
Proof.
  revert p. induction q as [|b q IH]; intros [|a p]; simpl.
  - split; [by intros [= <-]|by intros <-].
  - split; [by intros [= <-]|by intros <-].
  - done.
  - unfold str_eqb. case_bool_decide.
    + subst b. rewrite IH. split; [by intros ->|by intros [= ->]].
    + split; [done|]. intros [= ? _]. done.
Qed.

Lemma relative_to_None p q : relative_to p q = None ↔ ¬ q `prefix_of` p.
Proof.
  split.
  - intros H [r Hr]. apply relative_to_Some in Hr. congruence.
  - intros H. destruct (relative_to p q) as [r|] eqn:E; [|done].
    destruct H. exists r. by apply relative_to_Some.
Qed.

Lemma count_missing_target_eq link links r :
  relative_to (resolve fs (joinpath skill_dir link)) (resolve fs skill_dir)
    = Some r →
  exists_ fs (resolve fs (joinpath skill_dir link)) = false →
  count (msg_missing_target skill_md link)
    (concat (map (link_errors fs skill_dir skill_md) links))
  = count link links.
Proof.
  intros Hin Hex. induction links as [|l links IH]; [done|].
  cbn [map concat]. rewrite count_app, IH. unfold link_errors at 1.
  destruct (decide (l = link)) as [->|Hne].
  - rewrite Hin, Hex. by rewrite !count_cons_eq.
  - rewrite (count_cons_ne link l) by done.
    destruct (relative_to (resolve fs (joinpath skill_dir l)) _).
    + destruct (exists_ fs (resolve fs (joinpath skill_dir l))); [done|].
      rewrite count_cons_ne; [done|]. by intros ?%missing_target_inj.
    + rewrite count_cons_ne; [done|]. apply escapes_not_missing_target.
Qed.

Lemma count_escapes_none link links r :
  relative_to (resolve fs (joinpath skill_dir link)) (resolve fs skill_dir)
    = Some r →
  count (msg_escapes skill_md link)
    (concat (map (link_errors fs skill_dir skill_md) links))
  = 0%nat.
Proof.
  intros Hin. apply count_none.
  induction links as [|l links IH]; [done|].
  cbn [map concat]. apply Forall_app_2; [|done]. unfold link_errors.
  destruct (relative_to (resolve fs (joinpath skill_dir l)) _) eqn:E.
  - destruct (exists_ _ _); [done|]. apply Forall_singleton.
    apply not_eq_sym, escapes_not_missing_target.
  - apply Forall_singleton. intros ->%escapes_inj. congruence.
Qed.


Lemma not_about_link_count msg new :
  ¬ about_link skill_md msg → Forall (about_link skill_md) new →
  count msg new = 0%nat.
Proof.
  intros H Hnew. apply count_none.
  eapply Forall_impl; [exact Hnew|]. by intros e He ->.
Qed.

End containment.

(** X9: a link that stays in the folder but leads to nothing that exists
    gets the message of a missing target, with the target as it was
    yielded.  Over a whole folder, that message occurs once for each time
    the target is yielded, and the message of an escape never occurs for
    it. *)
Theorem missing_target_reported
    (fs : filesystem) (st : state) (skill_dir : path) (link : str) (r : path) :
  let skill_md := joinpath skill_dir (lit "SKILL.md") in
  relative_to (resolve fs (joinpath skill_dir link)) (resolve fs skill_dir)
    = Some r →
  exists_ fs (resolve fs (joinpath skill_dir link)) = false →
  check_link fs skill_dir skill_md st link
  = {| errors := errors st ++ [msg_missing_target skill_md link];
       seen_names := seen_names st |}
  ∧ ∀ data links,
      exists_ fs skill_md = true →
      parse_frontmatter (read_text fs skill_md) = Ok (Some data, None) →
      iter_relative_links (read_text fs skill_md) = Ok links →
      ∃ st' new,
        check_skill fs st skill_dir = Ok st'
        ∧ errors st' = errors st ++ new
        ∧ count (msg_missing_target skill_md link) new = count link links
        ∧ count (msg_escapes skill_md link) new = 0%nat.
Proof.
  intros skill_md Hin Hno. split.
  { rewrite check_link_eq. unfold link_errors. by rewrite Hin, Hno. }
  intros data links Hex Hp Hl.
  rewrite iter_relative_links_eq in Hl. injection Hl as <-.
  rewrite (check_skill_parsed fs st skill_dir data Hex Hp). fold skill_md.
  eexists _, _. split; [done|]. split; [done|].
  rewrite !count_app.
  rewrite (count_missing_target_eq fs skill_dir skill_md link _ r Hin Hno).
  rewrite (count_escapes_none fs skill_dir skill_md link _ r Hin).
  assert (Forall (λ e, ¬ about_link skill_md e)
            (if bool_decide (get_name (Some data) = [])
             then [msg_missing_name skill_md]
             else name_errors skill_dir skill_md (get_name (Some data))
                    (seen_names st))) as Hname.
  { case_bool_decide.
    - apply Forall_singleton, missing_name_not_about_link.
    - apply name_errors_not_about_link. }
  rewrite (count_none (msg_escapes skill_md link)),
    (count_none (msg_missing_target skill_md link)); [done| |].
  - eapply Forall_impl; [exact Hname|]. intros e He ->. apply He.
    exists link. by right.
  - eapply Forall_impl; [exact Hname|]. intros e He ->. apply He.
    exists link. by left.
Qed.

Lemma missing_target_reported_witness :
  ∃ st' new,
    check_skill Examples.linked Examples.start (Examples.skill "my-skill")
    = Ok st'
    ∧ errors st' = new
    ∧ count (lit "/repo/skills/my-skill/SKILL.md: missing link target: res/y.txt")
        new = 1%nat
    ∧ count (lit "/repo/skills/my-skill/SKILL.md: link escapes skill dir: res/y.txt")
        new = 0%nat.
Proof.
  destruct (missing_target_reported Examples.linked Examples.start
              (Examples.skill "my-skill") (lit "res/y.txt")
              [lit "res"; lit "y.txt"]
              ltac:(reflexivity) ltac:(reflexivity)) as [_ H].
  destruct (H (<[lit "name" := lit "other-skill"]> ∅)
              [lit "../../etc/passwd"; lit "res/x.txt"; lit "res/y.txt"]
              ltac:(reflexivity) ltac:(reflexivity) ltac:(reflexivity))
    as (st' & new & Hst & Herr & Hone & Hnone).
  exists st', new. split; [exact Hst|]. split; [exact Herr|].
  split; [exact Hone|exact Hnone].
Defined.

(** X10: a link escapes exactly when the resolved folder is not a prefix,
    component by component, of the resolved target; a target that resolves
    to the folder itself is inside.  The registry is never touched by a
    link. *)
Theorem escape_is_not_prefix
    (fs : filesystem) (st : state) (skill_dir skill_md : path) (link : str) :
  let target_path := resolve fs (joinpath skill_dir link) in
  let st' := check_link fs skill_dir skill_md st link in
  (errors st' = errors st ++ [msg_escapes skill_md link]
   ↔ ¬ resolve fs skill_dir `prefix_of` target_path)
  ∧ (target_path = resolve fs skill_dir →
     errors st' = errors st
                  ++ (if exists_ fs target_path then []
                      else [msg_missing_target skill_md link]))
  ∧ seen_names st' = seen_names st.
Proof.
  intros target_path st'. unfold st'. rewrite check_link_eq.
  cbn [errors seen_names]. unfold link_errors. fold target_path.
  split; [|split; [|done]].
  - rewrite <-relative_to_None.
    destruct (relative_to target_path _) as [r|]; [|done].
    split; [|done]. intros H%app_inv_head.
    destruct (exists_ fs target_path); [done|].
    injection H as H. symmetry in H.
    by apply escapes_not_missing_target in H.
  - intros H. rewrite H.
    by rewrite (proj2 (relative_to_Some _ _ []) (eq_sym (app_nil_r _))).
Qed.

Lemma escape_is_not_prefix_witness :
  errors (check_link Examples.linked (Examples.skill "my-skill")
            (Examples.skill_md "my-skill") Examples.start (lit "res/.."))
  = [].
Proof.
  apply (proj1 (proj2 (escape_is_not_prefix Examples.linked Examples.start
                         (Examples.skill "my-skill")
                         (Examples.skill_md "my-skill") (lit "res/..")))).
  reflexivity.
Defined.

Section folders.

Context (fs : filesystem).





Lemma check_skill_relist listing st skill_dir :
  check_skill (relist fs listing) st skill_dir = check_skill fs st skill_dir.
Proof. reflexivity. Qed.

Lemma check_skills_relist listing dirs : ∀ st,
  check_skills (relist fs listing) st dirs = check_skills fs st dirs.
Proof.
  induction dirs as [|d dirs IH]; intros st; [done|].
  cbn [check_skills]. rewrite check_skill_relist.
  destruct (check_skill fs st d); [apply IH|done].
Qed.

End folders.

#[local] Instance path_le_antisymm : AntiSymm (=) path_le.
Proof.
  intros p q Hpq Hqp. unfold path_le in *.
  destruct (path_ltb_total p q) as [?|[?|?]]; [done|congruence..].
Qed.

Lemma sorted_of_perm l1 l2 : l1 ≡ₚ l2 → sorted l1 = sorted l2.
Proof.
  intros H. apply (StronglySorted_unique path_le).
  - apply sorted_sorted.
  - apply sorted_sorted.
  - by rewrite !sorted_perm.
Qed.

Lemma filter_perm {A} (f : A → bool) l1 l2 :
  l1 ≡ₚ l2 → List.filter f l1 ≡ₚ List.filter f l2.
Proof.
  induction 1 as [|x l1 l2 _ IH|x y l|l1 l2 l3 _ IH1 _ IH2]; simpl.
  - done.
  - destruct (f x); [by constructor|done].
  - destruct (f x), (f y); try done. apply Permutation_swap.
  - by etrans.
Qed.


(** X12: a document without a name, or with an empty one, gets the one
    message that says so; nothing is entered in the registry, and the links
    are checked all the same. *)
Theorem missing_name_not_terminal
    (fs : filesystem) (st : state) (skill_dir : path) (data : dict) :
  let skill_md := joinpath skill_dir (lit "SKILL.md") in
  let text := read_text fs skill_md in
  exists_ fs skill_md = true →
  parse_frontmatter text = Ok (Some data, None) →
  default [] (data !! lit "name") = [] →
  ∃ links st',
    iter_relative_links text = Ok links
    ∧ check_skill fs st skill_dir = Ok st'
    ∧ st' = foldl (check_link fs skill_dir skill_md)
              (append st (msg_missing_name skill_md)) links
    ∧ seen_names st' = seen_names st
    ∧ ∃ new, errors st' = errors st ++ msg_missing_name skill_md :: new
             ∧ count (msg_missing_name skill_md) new = 0%nat.
Proof.
  intros skill_md text Hex Hp Hname.
  rewrite <-get_name_lookup in Hname.
  eexists _, _. split; [apply iter_relative_links_eq|].
  rewrite (check_skill_parsed fs st skill_dir data Hex Hp).
  fold skill_md text. rewrite bool_decide_eq_true_2 by done.
  split; [done|]. rewrite check_links_eq. cbn [errors seen_names append].
  split; [by rewrite <-app_assoc|]. split; [done|].
  eexists. split; [done|].
  apply (not_about_link_count skill_md);
    [apply missing_name_not_about_link|apply links_errors_about_link].
Qed.

Lemma missing_name_not_terminal_witness :
  ∃ st',
    check_skill
      (tree_fs [(Examples.skill "s", Dir);
                (Examples.skill_md "s",
                 File (lit "---" ++ [LF] ++ lit "title: t" ++ [LF]
                       ++ lit "---" ++ [LF] ++ lit "[a](gone.md)"))])
      Examples.start (Examples.skill "s")
    = Ok st'
    ∧ errors st'
      = [lit "/repo/skills/s/SKILL.md: missing name in frontmatter";
         lit "/repo/skills/s/SKILL.md: missing link target: gone.md"]
    ∧ seen_names st' = ∅.
Proof.
  destruct (missing_name_not_terminal
              (tree_fs [(Examples.skill "s", Dir);
                        (Examples.skill_md "s",
                         File (lit "---" ++ [LF] ++ lit "title: t" ++ [LF]
                               ++ lit "---" ++ [LF] ++ lit "[a](gone.md)"))])
              Examples.start (Examples.skill "s")
              (<[lit "title" := lit "t"]> ∅)
              ltac:(reflexivity) ltac:(reflexivity) ltac:(reflexivity))
    as (links & st' & Hl & Hst & Hfold & Hseen & _).
  exists st'. split; [exact Hst|].
  injection Hl as <-. rewrite Hfold. split; reflexivity.
Defined.


(** X14: the folders [main] goes through are the entries of [skills] that
    are directories, each as often as it is listed, in the order of their
    paths. *)
Theorem folders_sorted_directories (fs : filesystem) (skills_dir : path) :
  StronglySorted path_le (skill_dirs fs skills_dir)
  ∧ skill_dirs fs skills_dir
    ≡ₚ List.filter (is_dir fs) (iterdir fs skills_dir)
  ∧ ∀ d, d ∈ skill_dirs fs skills_dir
         ↔ ∃ name, name ∈ listdir fs skills_dir
                   ∧ d = skills_dir ++ [name] ∧ is_dir fs d = true.
Proof.
  destruct (skill_dirs_sorted fs skills_dir) as [Hs Hp].
  split; [done|]. split; [done|]. intros d. rewrite Hp.
  rewrite list_elem_of_In, filter_In, <-list_elem_of_In. unfold iterdir.
  rewrite list_elem_of_fmap. split.
  - intros [(name & -> & ?) ?]. by exists name.
  - intros (name & ? & -> & ?). split; [by exists name|done].
Qed.

(** X15: the verdict does not depend on the order in which the system
    lists a directory. *)
Theorem main_ignores_listing_order
    (fs : filesystem) (listing : path → list str) (repo_root : path) :
  (∀ p, listing p ≡ₚ listdir fs p) →
  main (relist fs listing) repo_root = main fs repo_root.
Proof.
  intros Hperm. unfold main, collect. cbn [is_dir relist].
  destruct (negb (is_dir fs _)); [done|].
  rewrite check_skills_relist.
  replace (skill_dirs (relist fs listing) (joinpath repo_root (lit "skills")))
    with (skill_dirs fs (joinpath repo_root (lit "skills"))); [done|].
  unfold skill_dirs. apply sorted_of_perm. cbn [is_dir relist].
  apply filter_perm. unfold iterdir. cbn [listdir relist].
  apply Permutation_map. symmetry. apply Hperm.
Qed.

Lemma main_ignores_listing_order_witness :
  main (relist Examples.shared
          (λ p, rev (listdir Examples.shared p))) Examples.REPO
  = main Examples.shared Examples.REPO.
Proof.
  apply (main_ignores_listing_order Examples.shared
           (λ p, rev (listdir Examples.shared p)) Examples.REPO).
  intros p. apply Permutation_sym, Permutation_rev.
Defined.

Section attribution.

Context (fs : filesystem) (skill_dir skill_md : path).

Lemma name_errors_attributed name seen :
  Forall (attributed skill_md) (name_errors skill_dir skill_md name seen)
  ∧ (length (name_errors skill_dir skill_md name seen) ≤ 3)%nat.
Proof.
  unfold name_errors. split.
  - repeat apply Forall_app_2.
    + case_bool_decide; [done|]. apply Forall_singleton. by eexists.
    + destruct (NAME_RE_match name); [done|]. apply Forall_singleton.
      by eexists.
    + destruct (seen !! name); [|done]. apply Forall_singleton. by eexists.
  - rewrite !length_app.
    case_bool_decide; destruct (NAME_RE_match name), (seen !! name);
      simpl; lia.
Qed.

Lemma links_errors_attributed links :
  Forall (attributed skill_md) (concat (map (link_errors fs skill_dir skill_md) links))
  ∧ (length (concat (map (link_errors fs skill_dir skill_md) links))
     ≤ length links)%nat.
Proof.
  induction links as [|l links [IH1 IH2]]; [done|].
  cbn [map concat]. rewrite length_app. unfold link_errors at 1 3.
  destruct (relative_to _ _); [destruct (exists_ _ _)|]; cbn [app length].
  - split; [done|lia].
  - split; [|lia]. constructor; [by eexists|done].
  - split; [|lia]. constructor; [by eexists|done].
Qed.

Lemma omap_length {A B} (f : A → option B) l :
  (length (omap f l) ≤ length l)%nat.
Proof.
  induction l as [|x l IH]; csimpl; [done|].
  destruct (f x); simpl; lia.
Qed.

End attribution.

Lemma folder_errors_attributed fs skill_dir seen :
  let skill_md := joinpath skill_dir (lit "SKILL.md") in
  Forall (attributed skill_md) (folder_errors fs seen skill_dir)
  ∧ (length (folder_errors fs seen skill_dir)
     ≤ 3 + length (LINK_RE_findall (read_text fs skill_md)))%nat.
Proof.
  intros skill_md. unfold folder_errors. fold skill_md.
  destruct (negb _).
  { split; [|simpl; lia]. apply Forall_singleton. by eexists. }
  destruct (parse_frontmatter _) as [[meta err]|]; [|by split; [|simpl; lia]].
  destruct (truthy err).
  { split; [|simpl; lia]. apply Forall_singleton. by eexists. }
  destruct (links_errors_attributed fs skill_dir skill_md
              (omap kept (LINK_RE_findall (read_text fs skill_md))))
    as [Hl1 Hl2].
  pose proof (omap_length kept (LINK_RE_findall (read_text fs skill_md))).
  rewrite length_app. case_bool_decide.
  - split; [|simpl; lia]. apply Forall_app_2; [|done].
    apply Forall_singleton. by eexists.
  - destruct (name_errors_attributed skill_dir skill_md (get_name meta) seen) as [Hn1 Hn2].
    split; [by apply Forall_app_2|lia].
Qed.

(** X16: every error a folder adds starts with the path of the folder's
    document and [: ]; there are at most three of them about the name and
    at most one for each link in the text. *)
Theorem folder_errors_carry_document
    (fs : filesystem) (st : state) (skill_dir : path) :
  let skill_md := joinpath skill_dir (lit "SKILL.md") in
  ∃ st' new,
    check_skill fs st skill_dir = Ok st'
    ∧ errors st' = errors st ++ new
    ∧ Forall (attributed skill_md) new
    ∧ (length new
       ≤ 3 + length (LINK_RE_findall (read_text fs skill_md)))%nat.
Proof.
  intros skill_md. eexists _, _. split; [apply check_skill_eq|].
  split; [done|]. apply folder_errors_attributed.
Qed.
